(** * Lazy sequence generator of [Advanced/coroutines.cpp]

    A shallow embedding of the C++20 coroutine generator [Generator<T>], of
    its iterator adapter, and of the three producers [fibonacci], [range]
    and [inorder], together with the properties of the generator protocol.

    The coroutine machinery of the language is made explicit:
    - a coroutine frame lives in a heap, at an address; a
      [std::coroutine_handle] is a nullable address;
    - a frame is suspended at its initial suspend point, at a [co_yield],
      or at its final suspend point; the producer's locals and resume point
      are the data of the first two;
    - operations whose precondition the C++ standard leaves to the caller
      (a null or dangling handle, [resume] at the final suspend point, signed
      overflow, reading an indeterminate value) have the outcome [Undefined];
    - [std::terminate] has the outcome [Terminated]. *)

From stdpp Require Import gmap strings list.
From Stdlib Require Import ZArith Lia.
Local Open Scope Z_scope.

(** ** The type [int] *)

Definition INT_MIN : Z := -2147483648.
Definition INT_MAX : Z := 2147483647.

Definition in_int (z : Z) : bool := (INT_MIN <=? z) && (z <=? INT_MAX).

(** ** Outcomes of a computation over a state [Σ] *)

Definition exn := string.

Inductive outcome (Σ A : Type) : Type :=
| Ok (a : A) (s : Σ)        (* normal return *)
| Raised (e : exn) (s : Σ)  (* a C++ exception in flight *)
| Undefined                 (* undefined behaviour *)
| Terminated                (* std::terminate() was called *)
| OutOfFuel.                (* the bound of the model on nesting or iteration *)
Arguments Ok {Σ A} a s.
Arguments Raised {Σ A} e s.
Arguments Undefined {Σ A}.
Arguments Terminated {Σ A}.
Arguments OutOfFuel {Σ A}.

Definition M (Σ A : Type) : Type := Σ → outcome Σ A.

Global Instance M_ret {Σ} : MRet (M Σ) := λ A a s, Ok a s.

Global Instance M_bind {Σ} : MBind (M Σ) := λ A B k c s,
  match c s with
  | Ok a s' => k a s'
  | Raised e s' => Raised e s'
  | Undefined => Undefined
  | Terminated => Terminated
  | OutOfFuel => OutOfFuel
  end.

Definition undefined {Σ A} : M Σ A := λ _, Undefined.
Definition throw {Σ A} (e : exn) : M Σ A := λ s, Raised e s.
Definition terminate {Σ A} : M Σ A := λ _, Terminated.
Definition out_of_fuel {Σ A} : M Σ A := λ _, OutOfFuel.

(** [a + b] on [int]: signed overflow is undefined behaviour. *)
Definition int_add {Σ} (a b : Z) : M Σ Z :=
  if in_int (a + b) then mret (a + b) else undefined.

(** ** Awaiters *)

Inductive awaiter := suspend_always | suspend_never.

Definition await_ready (a : awaiter) : bool :=
  match a with suspend_always => false | suspend_never => true end.

(** ** Frames, handles and the machine state *)

Definition addr := nat.

(** [std::coroutine_handle<promise_type>]: [None] is the null handle. *)
Definition handle_type := option addr.

Section Generator.
Context {T L : Type}.

(** [struct promise_type { T value; bool finished = false; ... }];
    [value] is not initialised by the constructor. *)
Record promise_type := Promise { value : option T; finished : bool }.

(** Where a frame is suspended, with the producer's live locals. *)
Inductive suspend_point :=
| InitialSuspend (l : L)
| YieldSuspend (l : L)
| FinalSuspend.

Record frame := Frame { point : suspend_point; promise : promise_type }.

Record Generator := mkGenerator { coro : handle_type }.

Record Iterator := mkIterator { handle : handle_type }.

(** What [println] writes. *)
Inductive event := Line (s : string) | Item (v : T).

Record machine := Machine {
  heap : gmap addr frame;          (* the live coroutine frames *)
  vars : gmap nat Generator;       (* the live named [Generator] objects *)
  out : list event                 (* standard output *)
}.

Definition set_heap (f : gmap addr frame → gmap addr frame) (m : machine) :=
  {| heap := f (heap m); vars := vars m; out := out m |}.
Definition set_vars (f : gmap nat Generator → gmap nat Generator) (m : machine) :=
  {| heap := heap m; vars := f (vars m); out := out m |}.

Definition modify (f : machine → machine) : M machine unit :=
  λ m, Ok () (f m).

Definition println (e : event) : M machine unit :=
  modify (λ m, {| heap := heap m; vars := vars m; out := out m ++ [e] |}).

Definition frame_at (a : addr) : M machine frame :=
  λ m, match heap m !! a with Some f => Ok f m | None => Undefined end.
Definition store_frame (a : addr) (f : frame) : M machine unit :=
  modify (set_heap <[a := f]>).
Definition free_frame (a : addr) : M machine unit :=
  modify (set_heap (delete a)).
Definition alloc_frame (f : frame) : M machine addr :=
  λ m, let a := fresh (dom (heap m)) in Ok a (set_heap <[a := f]> m).

(** *** The promise *)

Definition get_return_object (this : addr) : Generator :=
  {| coro := Some this |}.
Definition initial_suspend : awaiter := suspend_always.
Definition final_suspend : awaiter := suspend_always.
Definition return_void (p : promise_type) : promise_type :=
  {| value := value p; finished := true |}.
(** [yield_value] answers [suspend_always]: the coroutine suspends at every
    [co_yield]. *)
Definition yield_value (v : T) (p : promise_type) : promise_type :=
  {| value := Some v; finished := finished p |}.
Definition unhandled_exception {A} : M machine A := terminate.

(** *** Resuming and destroying frames

    [resume] and [destroy] of a frame run code of the producer, which may
    itself drive other generators; the code of the producer reaches them
    through an [engine]. *)
Record engine := Engine {
  eresume : addr → M machine unit;
  edestroy : addr → M machine unit
}.

Definition no_engine : engine :=
  {| eresume := λ _, out_of_fuel; edestroy := λ _, out_of_fuel |}.

(** How a segment of a producer body ends. *)
Inductive suspension :=
| Yield (v : T) (l : L)     (* co_yield v, suspended with locals l *)
| Return.                   (* fell off the end of the body *)

(** A coroutine function: [body] runs it from a resume point to the next
    suspension, [drop] runs the destructors of the locals alive at a
    resume point. *)
Record coroutine := Coroutine {
  body : engine → L → M machine suspension;
  drop : engine → L → M machine unit
}.

Section Handle.
Variable E : engine.

(** **** [std::coroutine_handle] *)
Definition handle_resume (h : handle_type) : M machine unit :=
  match h with Some a => eresume E a | None => undefined end.

Definition handle_done (h : handle_type) : M machine bool :=
  match h with
  | Some a =>
      f ← frame_at a;
      mret (match point f with FinalSuspend => true | _ => false end)
  | None => undefined
  end.

Definition handle_destroy (h : handle_type) : M machine unit :=
  match h with Some a => edestroy E a | None => undefined end.

Definition handle_promise (h : handle_type) : M machine promise_type :=
  match h with
  | Some a => f ← frame_at a; mret (promise f)
  | None => undefined
  end.

(** **** [Generator::Iterator] *)
Definition Iterator_ne (it : Iterator) : M machine bool :=
  d ← handle_done (handle it); mret (negb d).

Definition Iterator_incr (it : Iterator) : M machine unit :=
  handle_resume (handle it).

Definition Iterator_deref (it : Iterator) : M machine T :=
  p ← handle_promise (handle it);
  match value p with Some v => mret v | None => undefined end.

(** **** [Generator] *)
Definition Generator_dtor (g : Generator) : M machine unit :=
  if coro g is Some _ then handle_destroy (coro g) else mret ().

Definition begin (g : Generator) : M machine Iterator :=
  (if coro g is Some _ then handle_resume (coro g) else mret ());;
  d ← handle_done (coro g);
  if negb d then mret {| handle := coro g |}
  else mret {| handle := None |}.

Definition end_ (g : Generator) : unit := ().

(** [n] resumes in a row, and what the last of them produced: the value
    yielded, or [None] when it completed the frame. *)
Fixpoint resumes (n : nat) (h : handle_type) : M machine unit :=
  match n with
  | O => mret ()
  | S n' => handle_resume h;; resumes n' h
  end.

Definition nth_resume (n : nat) (h : handle_type) : M machine (option T) :=
  resumes n h;;
  d ← handle_done h;
  if d : bool then mret None
  else p ← handle_promise h; mret (value p).

(** Calling a coroutine function whose return type is [Generator]: the
    frame and its promise are created, the return object is taken, and
    the body runs to its first suspension only if the initial awaiter
    is ready. *)
Definition coroutine_call (l0 : L) : M machine Generator :=
  a ← alloc_frame {| point := InitialSuspend l0;
                      promise := {| value := None; finished := false |} |};
  let g := get_return_object a in
  (if await_ready initial_suspend then eresume E a else mret ());;
  mret g.

(** The range-based [for] statement over an iterator, [loop_body]
    answering whether it breaks. *)
Fixpoint for_loop {St} (n : nat) (it : Iterator) (s : St)
    (loop_body : T → St → M machine (St * bool)) : M machine St :=
  match n with
  | O => out_of_fuel
  | S n' =>
      c ← Iterator_ne it;
      if c : bool then
        v ← Iterator_deref it;
        r ← loop_body v s;
        if r.2 : bool then mret r.1
        else Iterator_incr it;; for_loop n' it r.1 loop_body
      else mret s
  end.

(** The first [n] values of the loop over [it], fewer when the frame
    completes before: [for (auto v : ...) { push(v); if (size >= n) break; }].
    [take_footprint] also records the number of live frames at each
    value. *)
Definition take (n : nat) (it : Iterator) : M machine (list T) :=
  for_loop n it [] (λ v acc,
    mret (acc ++ [v], n <=? length (acc ++ [v]))%nat).

Definition live_frames : M machine nat := λ m, Ok (size (heap m)) m.

Definition take_footprint (n : nat) (it : Iterator)
    : M machine (list (T * nat)) :=
  for_loop n it [] (λ v acc,
    k ← live_frames;
    mret (acc ++ [(v, k)], n <=? length (acc ++ [(v, k)]))%nat).

(** [for (auto v : call) loop_body]: the generator is a temporary that
    lives until the statement ends. *)
Definition range_for {St} (n : nat) (call : M machine Generator) (s : St)
    (loop_body : T → St → M machine (St * bool)) : M machine St :=
  g ← call;
  it ← begin g;
  s' ← for_loop n it s loop_body;
  Generator_dtor g;;
  mret s'.
End Handle.

(** *** Named [Generator] objects: construction, move, destruction *)

Definition var_get (x : nat) : M machine Generator :=
  λ m, match vars m !! x with Some g => Ok g m | None => Undefined end.
Definition var_new (g : Generator) : M machine nat :=
  λ m, let x := fresh (dom (vars m)) in Ok x (set_vars <[x := g]> m).
Definition var_set_coro (x : nat) (h : handle_type) : M machine unit :=
  _ ← var_get x;
  modify (set_vars <[x := {| coro := h |}]>).
Definition var_end (x : nat) : M machine unit :=
  modify (set_vars (delete x)).

Section Object.
Variable E : engine.

(** [explicit Generator(handle_type h) : coro(h) {}] *)
Definition Generator_ctor (h : handle_type) : M machine nat :=
  var_new {| coro := h |}.

(** [~Generator()] of a named object, whose lifetime ends. *)
Definition Generator_dtor_at (this : nat) : M machine unit :=
  g ← var_get this;
  Generator_dtor E g;;
  var_end this.

(** [Generator(Generator&& other) noexcept] *)
Definition Generator_move_ctor (other : nat) : M machine nat :=
  o ← var_get other;
  this ← var_new {| coro := coro o |};
  var_set_coro other None;;
  mret this.

(** [Generator& operator=(Generator&& other) noexcept] *)
Definition Generator_move_assign (this other : nat) : M machine unit :=
  if decide (this ≠ other) then
    t ← var_get this;
    (if coro t is Some _ then handle_destroy E (coro t) else mret ());;
    o ← var_get other;
    var_set_coro this (coro o);;
    var_set_coro other None
  else mret ().
End Object.

Variable C : coroutine.

(** The implicit [try { body } catch (...) { promise.unhandled_exception(); }]
    around a coroutine body. *)
Definition coroutine_boundary {A} (c : M machine A) : M machine A :=
  λ m, match c m with
       | Raised e m' => unhandled_exception m'
       | r => r
       end.

(** [coroutine_handle::destroy], nested generators being driven by [E]:
    the locals, then the frame. *)
Definition destroy_with (E : engine) (a : addr) : M machine unit :=
  f ← frame_at a;
  match point f with
  | InitialSuspend l | YieldSuspend l => drop C E l
  | FinalSuspend => mret ()
  end;;
  free_frame a.

(** [coroutine_handle::resume], nested generators being driven by [E]:
    runs the body to its next suspension. *)
Definition resume_with (E : engine) (a : addr) : M machine unit :=
  f ← frame_at a;
  match point f with
  | FinalSuspend => undefined
  | InitialSuspend l | YieldSuspend l =>
      s ← coroutine_boundary (body C E l);
      match s with
      | Yield v l' =>
          store_frame a {| point := YieldSuspend l';
                           promise := yield_value v (promise f) |}
      | Return =>
          let p := return_void (promise f) in
          if await_ready final_suspend then free_frame a
          else store_frame a {| point := FinalSuspend; promise := p |}
      end
  end.

(** The engine that drives generators nested at most [fuel] deep. *)
Fixpoint run (fuel : nat) : engine :=
  let E := match fuel with O => no_engine | S n => run n end in
  {| eresume := resume_with E; edestroy := destroy_with E |}.

Definition inner (fuel : nat) : engine :=
  match fuel with O => no_engine | S n => run n end.

Definition resume (fuel : nat) : addr → M machine unit := eresume (run fuel).
Definition destroy (fuel : nat) : addr → M machine unit := edestroy (run fuel).

End Generator.

Arguments promise_type : clear implicits.
Arguments frame : clear implicits.
Arguments machine : clear implicits.
Arguments engine : clear implicits.
Arguments suspension : clear implicits.
Arguments coroutine : clear implicits.
Arguments event : clear implicits.

(** ** The producers *)

(** *** [Generator<int> fibonacci()] *)

Inductive fibonacci_locals :=
| fibonacci_entry                      (* not started *)
| fibonacci_yield (a b : Z).           (* suspended at [co_yield a] *)

Definition fibonacci_body (E : engine Z fibonacci_locals) (l : fibonacci_locals)
    : M (machine Z fibonacci_locals) (suspension Z fibonacci_locals) :=
  match l with
  | fibonacci_entry =>
      let a := 0 in
      let b := 1 in
      mret (Yield a (fibonacci_yield a b))
  | fibonacci_yield a b =>
      let (a, b) := (b, a) in          (* std::swap(a, b) *)
      b ← int_add b a;                 (* b += a *)
      mret (Yield a (fibonacci_yield a b))
  end.

Definition fibonacci_coroutine : coroutine Z fibonacci_locals :=
  {| body := fibonacci_body; drop := λ _ _, mret () |}.

Definition fibonacci (E : engine Z fibonacci_locals)
    : M (machine Z fibonacci_locals) Generator :=
  coroutine_call E fibonacci_entry.

(** *** [Generator<int> range(int start, int end, int step = 1)] *)

Inductive range_locals :=
| range_entry (start end_ step : Z)    (* not started *)
| range_yield (end_ step i : Z).       (* suspended at [co_yield i] *)

(** The loop test [i < end] and the loop body up to its [co_yield]. *)
Definition range_test (end_ step i : Z)
    : M (machine Z range_locals) (suspension Z range_locals) :=
  if i <? end_ then mret (Yield i (range_yield end_ step i))
  else mret Return.

Definition range_body (E : engine Z range_locals) (l : range_locals)
    : M (machine Z range_locals) (suspension Z range_locals) :=
  match l with
  | range_entry start end_ step =>
      let i := start in
      range_test end_ step i
  | range_yield end_ step i =>
      i ← int_add i step;              (* i += step *)
      range_test end_ step i
  end.

Definition range_coroutine : coroutine Z range_locals :=
  {| body := range_body; drop := λ _ _, mret () |}.

Definition range_default_step : Z := 1.

Definition range (E : engine Z range_locals) (start end_ step : Z)
    : M (machine Z range_locals) Generator :=
  coroutine_call E (range_entry start end_ step).

(** *** [struct TreeNode] and [Generator<int> inorder(const TreeNode* node)] *)

(** [left] and [right] are [std::unique_ptr<TreeNode>]: an owned subtree or
    null. *)
#[local] Set Warnings "-register-all".
Inductive TreeNode :=
| mkTreeNode (node_value : Z) (node_left node_right : option TreeNode).

Definition node_value (n : TreeNode) : Z :=
  let (v, _, _) := n in v.
Definition node_left (n : TreeNode) : option TreeNode :=
  let (_, l, _) := n in l.
Definition node_right (n : TreeNode) : option TreeNode :=
  let (_, _, r) := n in r.

(** In the two loops the temporary generator of the range-based [for] and
    its iterator are alive across the [co_yield]. *)
Inductive inorder_locals :=
| inorder_entry (node : option TreeNode)                          (* not started *)
| inorder_yield_left (node : TreeNode) (g : Generator) (it : Iterator)
                                                (* [co_yield val], first loop *)
| inorder_yield_value (node : TreeNode)         (* [co_yield node->value] *)
| inorder_yield_right (node : TreeNode) (g : Generator) (it : Iterator).
                                                (* [co_yield val], second loop *)

Abbreviation inorder_machine := (machine Z inorder_locals).
Abbreviation inorder_suspension := (suspension Z inorder_locals).

Definition inorder (E : engine Z inorder_locals) (node : option TreeNode)
    : M inorder_machine Generator :=
  coroutine_call E (inorder_entry node).

Section InorderBody.
Variable E : engine Z inorder_locals.

(** The second loop, from its test. *)
Definition inorder_right_loop (node : TreeNode) (g : Generator) (it : Iterator)
    : M inorder_machine inorder_suspension :=
  c ← Iterator_ne it;
  if c : bool then
    val ← Iterator_deref it;
    mret (Yield val (inorder_yield_right node g it))
  else
    Generator_dtor E g;;
    mret Return.

(** From after [co_yield node->value]. *)
Definition inorder_right (node : TreeNode)
    : M inorder_machine inorder_suspension :=
  match node_right node with
  | Some r =>
      g ← inorder E (Some r);
      it ← begin E g;
      inorder_right_loop node g it
  | None => mret Return
  end.

(** The first loop, from its test. *)
Definition inorder_left_loop (node : TreeNode) (g : Generator) (it : Iterator)
    : M inorder_machine inorder_suspension :=
  c ← Iterator_ne it;
  if c : bool then
    val ← Iterator_deref it;
    mret (Yield val (inorder_yield_left node g it))
  else
    Generator_dtor E g;;
    mret (Yield (node_value node) (inorder_yield_value node)).

Definition inorder_body (l : inorder_locals)
    : M inorder_machine inorder_suspension :=
  match l with
  | inorder_entry None => mret Return
  | inorder_entry (Some node) =>
      match node_left node with
      | Some l =>
          g ← inorder E (Some l);
          it ← begin E g;
          inorder_left_loop node g it
      | None => mret (Yield (node_value node) (inorder_yield_value node))
      end
  | inorder_yield_left node g it =>
      Iterator_incr E it;;
      inorder_left_loop node g it
  | inorder_yield_value node => inorder_right node
  | inorder_yield_right node g it =>
      Iterator_incr E it;;
      inorder_right_loop node g it
  end.

Definition inorder_drop (l : inorder_locals) : M inorder_machine unit :=
  match l with
  | inorder_yield_left _ g _ | inorder_yield_right _ g _ => Generator_dtor E g
  | inorder_entry _ | inorder_yield_value _ => mret ()
  end.
End InorderBody.

Definition inorder_coroutine : coroutine Z inorder_locals :=
  {| body := inorder_body; drop := inorder_drop |}.

(** ** The test functions *)

Definition nl : string := String (Ascii.ascii_of_nat 10) EmptyString.

Definition empty_machine {T L} : machine T L :=
  {| heap := ∅; vars := ∅; out := [] |}.

(** [fuel] bounds the iterations of the loop and the nesting of generators. *)
Definition testFibonacci (fuel : nat) : M (machine Z fibonacci_locals) unit :=
  let E := run fibonacci_coroutine fuel in
  println (Line (nl +:+ "🧪 1. Fibonacci 生成器"));;
  let count := 0 in
  range_for E fuel (fibonacci E) count (λ n count,
    println (Item n);;
    count ← int_add count 1;
    mret (count, count >=? 10));;
  mret ().

Definition testRange (fuel : nat) : M (machine Z range_locals) unit :=
  let E := run range_coroutine fuel in
  println (Line (nl +:+ "🧪 2. 范围生成器"));;
  range_for E fuel (range E 1 6 range_default_step) () (λ i _,
    println (Item i);;
    mret ((), false)).

(** [root] of [testTreeTraversal]. *)
Definition leaf (v : Z) : TreeNode := mkTreeNode v None None.
Definition test_root : TreeNode :=
  mkTreeNode 4 (Some (mkTreeNode 2 (Some (leaf 1)) (Some (leaf 3))))
               (Some (mkTreeNode 6 (Some (leaf 5)) (Some (leaf 7)))).

Definition testTreeTraversal (fuel : nat) : M inorder_machine unit :=
  let E := run inorder_coroutine fuel in
  println (Line (nl +:+ "🧪 3. 树遍历生成器"));;
  let root := test_root in
  range_for E fuel (inorder E (Some root)) () (λ val _,
    println (Item val);;
    mret ((), false)).


(** ** Test inputs of the properties below

    Producers that the sources do not contain, written the same way. *)

(** [Generator<int> traced() { println("started"); co_yield 1; }] *)
Inductive traced_locals := traced_entry | traced_yield.

Definition traced_body (E : engine Z traced_locals) (l : traced_locals)
    : M (machine Z traced_locals) (suspension Z traced_locals) :=
  match l with
  | traced_entry => println (Line "started");; mret (Yield 1 traced_yield)
  | traced_yield => mret Return
  end.

Definition traced_coroutine : coroutine Z traced_locals :=
  {| body := traced_body; drop := λ _ _, mret () |}.

(** [Generator<int> faulty() { co_yield 1; throw std::runtime_error("boom"); }] *)
Inductive faulty_locals := faulty_entry | faulty_yield.

Definition faulty_body (E : engine Z faulty_locals) (l : faulty_locals)
    : M (machine Z faulty_locals) (suspension Z faulty_locals) :=
  match l with
  | faulty_entry => mret (Yield 1 faulty_yield)
  | faulty_yield => throw "boom"
  end.

Definition faulty_coroutine : coroutine Z faulty_locals :=
  {| body := faulty_body; drop := λ _ _, mret () |}.

(** ** Observations *)

(** The computation returns [a], in some state. *)
Definition returns {Σ A} (r : outcome Σ A) (a : A) : Prop :=
  ∃ s, r = Ok a s.

(** An explicit failure: an exception reaches the caller, or the program is
    terminated. *)
Definition fails_explicitly {Σ A} (r : outcome Σ A) : Prop :=
  r = Terminated ∨ ∃ e s, r = Raised e s.

(** The frame at [a] is the one of a [range] up to [end_] by [step],
    suspended at [co_yield i]. *)
Definition range_at (a : addr) (end_ step i : Z) (m : machine Z range_locals)
    : Prop :=
  ∃ p, heap m !! a = Some (Frame (YieldSuspend (range_yield end_ step i)) p)
       ∧ value p = Some i.

(** The in-order sequence of the values of a tree, and its height. *)
Fixpoint flatten (t : TreeNode) : list Z :=
  match t with
  | mkTreeNode v l r =>
      match l with Some l' => flatten l' | None => [] end
      ++ v :: match r with Some r' => flatten r' | None => [] end
  end.

Definition flatten_opt (t : option TreeNode) : list Z :=
  match t with Some t' => flatten t' | None => [] end.

Fixpoint height (t : TreeNode) : nat :=
  match t with
  | mkTreeNode v l r =>
      S (match l with Some l' => height l' | None => 0 end
         `max` match r with Some r' => height r' | None => 0 end)
  end.

(** [inorder] with its body withheld: the destructors of the locals are
    those of [inorder], and running any part of the body is undefined.  What
    returns under the engine of this coroutine has run no code of the
    producer. *)
Definition inorder_no_body : coroutine Z inorder_locals :=
  {| body := λ _ _, undefined; drop := inorder_drop |}.

(** [gen_state a t k own]: the frames [own] are those of the generator
    [inorder(t)] at [a] and of the generators nested in it, after [k] of its
    resumes: not started for [k = 0], suspended at the [co_yield] of the
    [k]-th value of [flatten t] for [1 ≤ k ≤ length (flatten t)], completed
    after one more. *)
Inductive gen_state
    : addr → TreeNode → nat → gmap addr (frame Z inorder_locals) → Prop :=
| gen_start a t p :
    gen_state a t 0
      {[a := Frame (InitialSuspend (inorder_entry (Some t))) p]}
| gen_left a t lt c k own p x :
    node_left t = Some lt →
    gen_state c lt k own → (1 ≤ k ≤ length (flatten lt))%nat →
    own !! a = None →
    flatten lt !! (k - 1)%nat = Some x → value p = Some x →
    gen_state a t k
      (<[a := Frame (YieldSuspend (inorder_yield_left t {| coro := Some c |}
                                     {| handle := Some c |})) p]> own)
| gen_value a t k p :
    k = S (length (flatten_opt (node_left t))) →
    value p = Some (node_value t) →
    gen_state a t k {[a := Frame (YieldSuspend (inorder_yield_value t)) p]}
| gen_right a t rt c k k' own p x :
    node_right t = Some rt →
    gen_state c rt k own → (1 ≤ k ≤ length (flatten rt))%nat →
    own !! a = None →
    flatten rt !! (k - 1)%nat = Some x → value p = Some x →
    k' = (S (length (flatten_opt (node_left t))) + k)%nat →
    gen_state a t k'
      (<[a := Frame (YieldSuspend (inorder_yield_right t {| coro := Some c |}
                                     {| handle := Some c |})) p]> own)
| gen_final a t k p :
    k = S (length (flatten t)) →
    gen_state a t k {[a := Frame FinalSuspend p]}.

(** The Fibonacci numbers, by their recurrence, and in pairs
    [(fib n, fib (n + 1))]. *)
Fixpoint fib (n : nat) : Z :=
  match n with
  | O => 0
  | S n' => match n' with O => 1 | S n'' => fib n' + fib n'' end
  end.

Fixpoint fib_pair (n : nat) : Z * Z :=
  match n with
  | O => (0, 1)
  | S n' => let (a, b) := fib_pair n' in (b, a + b)
  end.

(** No two named generators own the same frame. *)
Definition unique_owner {T L} (m : machine T L) : Prop :=
  ∀ x y G H a,
    vars m !! x = Some G → vars m !! y = Some H →
    coro G = Some a → coro H = Some a → x = y.

(** * Properties *)

(** ** The monad *)

Lemma bind_Ok {Σ A B} (c : M Σ A) (k : A → M Σ B) s a s' :
  c s = Ok a s' → (c ≫= k) s = k a s'.
Proof. intros H. unfold mbind, M_bind. by rewrite H. Qed.

Lemma bind_Undefined {Σ A B} (c : M Σ A) (k : A → M Σ B) s :
  c s = Undefined → (c ≫= k) s = Undefined.
Proof. intros H. unfold mbind, M_bind. by rewrite H. Qed.

Lemma bind_Terminated {Σ A B} (c : M Σ A) (k : A → M Σ B) s :
  c s = Terminated → (c ≫= k) s = Terminated.
Proof. intros H. unfold mbind, M_bind. by rewrite H. Qed.

Lemma bind_OutOfFuel {Σ A B} (c : M Σ A) (k : A → M Σ B) s :
  c s = OutOfFuel → (c ≫= k) s = OutOfFuel.
Proof. intros H. unfold mbind, M_bind. by rewrite H. Qed.

Lemma ret_Ok {Σ A} (a : A) (s : Σ) : (mret a : M Σ A) s = Ok a s.
Proof. reflexivity. Qed.

Ltac munfold :=
  unfold mbind, M_bind, mret, M_ret, undefined, terminate, out_of_fuel,
    throw, modify in *.

(** ** The engine *)

Section Protocol.
Context {T L : Type} (C : coroutine T L).
Implicit Types (m : machine T L) (a : addr) (f : frame T L) (E : engine T L).

Lemma run_unfold fuel :
  run C fuel = {| eresume := resume_with C (inner C fuel);
                  edestroy := destroy_with C (inner C fuel) |}.
Proof. by destruct fuel. Qed.

Lemma resume_unfold fuel a : resume C fuel a = resume_with C (inner C fuel) a.
Proof. unfold resume. by rewrite run_unfold. Qed.

Lemma destroy_unfold fuel a : destroy C fuel a = destroy_with C (inner C fuel) a.
Proof. unfold destroy. by rewrite run_unfold. Qed.

Lemma frame_at_Some a m f : heap m !! a = Some f → frame_at a m = Ok f m.
Proof. intros H. unfold frame_at. by rewrite H. Qed.

Lemma frame_at_None a m : heap m !! a = None → frame_at a m = @Undefined _ (frame T L).
Proof. intros H. unfold frame_at. by rewrite H. Qed.

(** A frame at its final suspend point is done, and resuming it is
    undefined. *)
Lemma done_at_final a m f :
  heap m !! a = Some f → point f = FinalSuspend →
  handle_done (Some a) m = Ok true m.
Proof.
  intros Ha Hf. unfold handle_done.
  rewrite (bind_Ok _ _ _ _ _ (frame_at_Some _ _ _ Ha)). by rewrite Hf.
Qed.

Lemma resume_with_final E a m f :
  heap m !! a = Some f → point f = FinalSuspend →
  resume_with C E a m = Undefined.
Proof.
  intros Ha Hf. unfold resume_with.
  rewrite (bind_Ok _ _ _ _ _ (frame_at_Some _ _ _ Ha)). by rewrite Hf.
Qed.
Lemma resume_with_return E a m f l m1 :
  heap m !! a = Some f →
  point f = InitialSuspend l ∨ point f = YieldSuspend l →
  body C E l m = Ok Return m1 →
  resume_with C E a m =
    Ok () (set_heap <[a := Frame FinalSuspend (return_void (promise f))]> m1).
Proof.
  intros Ha Hf Hb. unfold resume_with.
  rewrite (bind_Ok _ _ _ _ _ (frame_at_Some _ _ _ Ha)).
  assert (coroutine_boundary (body C E l) m = Ok Return m1) as Hc
    by (unfold coroutine_boundary; by rewrite Hb).
  destruct Hf as [-> | ->]; by rewrite (bind_Ok _ _ _ _ _ Hc).
Qed.

Lemma resume_with_yield E a m f l v l' m1 :
  heap m !! a = Some f →
  point f = InitialSuspend l ∨ point f = YieldSuspend l →
  body C E l m = Ok (Yield v l') m1 →
  resume_with C E a m =
    Ok () (set_heap <[a := Frame (YieldSuspend l') (yield_value v (promise f))]> m1).
Proof.
  intros Ha Hf Hb. unfold resume_with.
  rewrite (bind_Ok _ _ _ _ _ (frame_at_Some _ _ _ Ha)).
  assert (coroutine_boundary (body C E l) m = Ok (Yield v l') m1) as Hc
    by (unfold coroutine_boundary; by rewrite Hb).
  destruct Hf as [-> | ->]; by rewrite (bind_Ok _ _ _ _ _ Hc).
Qed.

Lemma resume_with_raised E a m f l e m1 :
  heap m !! a = Some f →
  point f = InitialSuspend l ∨ point f = YieldSuspend l →
  body C E l m = Raised e m1 →
  resume_with C E a m = Terminated.
Proof.
  intros Ha Hf Hb. unfold resume_with.
  rewrite (bind_Ok _ _ _ _ _ (frame_at_Some _ _ _ Ha)).
  assert (coroutine_boundary (body C E l) m = @Terminated _ (suspension T L))
    as Hc by (unfold coroutine_boundary; by rewrite Hb).
  destruct Hf as [-> | ->]; by rewrite (bind_Terminated _ _ _ Hc).
Qed.

Lemma resume_with_undefined E a m f l :
  heap m !! a = Some f →
  point f = InitialSuspend l ∨ point f = YieldSuspend l →
  body C E l m = Undefined →
  resume_with C E a m = Undefined.
Proof.
  intros Ha Hf Hb. unfold resume_with.
  rewrite (bind_Ok _ _ _ _ _ (frame_at_Some _ _ _ Ha)).
  assert (coroutine_boundary (body C E l) m = @Undefined _ (suspension T L))
    as Hc by (unfold coroutine_boundary; by rewrite Hb).
  destruct Hf as [-> | ->]; by rewrite (bind_Undefined _ _ _ Hc).
Qed.

Lemma resume_with_terminated E a m f l :
  heap m !! a = Some f →
  point f = InitialSuspend l ∨ point f = YieldSuspend l →
  body C E l m = Terminated →
  resume_with C E a m = Terminated.
Proof.
  intros Ha Hf Hb. unfold resume_with.
  rewrite (bind_Ok _ _ _ _ _ (frame_at_Some _ _ _ Ha)).
  assert (coroutine_boundary (body C E l) m = @Terminated _ (suspension T L))
    as Hc by (unfold coroutine_boundary; by rewrite Hb).
  destruct Hf as [-> | ->]; by rewrite (bind_Terminated _ _ _ Hc).
Qed.

Lemma resume_with_out_of_fuel E a m f l :
  heap m !! a = Some f →
  point f = InitialSuspend l ∨ point f = YieldSuspend l →
  body C E l m = OutOfFuel →
  resume_with C E a m = OutOfFuel.
Proof.
  intros Ha Hf Hb. unfold resume_with.
  rewrite (bind_Ok _ _ _ _ _ (frame_at_Some _ _ _ Ha)).
  assert (coroutine_boundary (body C E l) m = @OutOfFuel _ (suspension T L))
    as Hc by (unfold coroutine_boundary; by rewrite Hb).
  destruct Hf as [-> | ->]; by rewrite (bind_OutOfFuel _ _ _ Hc).
Qed.

Lemma heap_set_insert a f m : heap (set_heap <[a := f]> m) !! a = Some f.
Proof. simpl. apply lookup_insert_eq. Qed.

(** *** Laziness *)

(** C4: calling a coroutine function that returns a [Generator] only
    creates the frame, suspended at its initial suspend point with the
    producer's arguments untouched: nothing is printed, no other frame or
    object changes.  The first segment of the producer body runs in
    [begin], whose outcome is that of the segment: a cursor on the frame
    when it yields, the null cursor when it returns. *)
Theorem creation_is_lazy (fuel : nat) (l0 : L) m :
  let E := run C fuel in
  let a := fresh (dom (heap m)) in
  let m0 := set_heap <[a := Frame (InitialSuspend l0) (Promise None false)]> m in
  coroutine_call E l0 m = Ok {| coro := Some a |} m0
  ∧ out m0 = out m
  ∧ begin E {| coro := Some a |} m0 =
      match body C (inner C fuel) l0 m0 with
      | Ok (Yield v l1) m1 =>
          Ok {| handle := Some a |}
             (set_heap <[a := Frame (YieldSuspend l1) (Promise (Some v) false)]> m1)
      | Ok Return m1 =>
          Ok {| handle := None |}
             (set_heap <[a := Frame FinalSuspend (Promise None true)]> m1)
      | Raised _ _ => Terminated
      | Undefined => Undefined
      | Terminated => Terminated
      | OutOfFuel => OutOfFuel
      end.
Proof.
  intros E a m0. split; [reflexivity|]. split; [reflexivity|].
  assert (heap m0 !! a = Some (Frame (InitialSuspend l0) (Promise None false)))
    as Ha by apply heap_set_insert.
  unfold begin, handle_resume. cbn [coro]. subst E.
  rewrite run_unfold. cbn [eresume].
  destruct (body C (inner C fuel) l0 m0) as [[v l1|] m1|e m1| | |] eqn:Hb.
  - erewrite bind_Ok by (eapply resume_with_yield; eauto).
    unfold handle_done.
    erewrite bind_Ok; [|erewrite bind_Ok;
      [reflexivity|apply frame_at_Some, heap_set_insert]]. done.
  - erewrite bind_Ok by (eapply resume_with_return; eauto).
    unfold handle_done.
    erewrite bind_Ok; [|erewrite bind_Ok;
      [reflexivity|apply frame_at_Some, heap_set_insert]]. done.
  - apply bind_Terminated. eapply resume_with_raised; eauto.
  - apply bind_Undefined. eapply resume_with_undefined; eauto.
  - apply bind_Terminated. eapply resume_with_terminated; eauto.
  - apply bind_OutOfFuel. eapply resume_with_out_of_fuel; eauto.
Qed.

(** *** After completion *)

(** C2, as the code has it: once the producer body has returned, reading
    through the adapter does not fail; [operator*] returns the value of
    the last [co_yield], which [return_void] leaves in the promise. *)
Theorem read_after_completion_is_stale (fuel : nat) a m l p (v : T) m1 :
  heap m !! a = Some {| point := YieldSuspend l; promise := p |} →
  value p = Some v →
  body C (inner C fuel) l m = Ok Return m1 →
  ∃ m2, resume C fuel a m = Ok () m2
    ∧ handle_done (Some a) m2 = Ok true m2
    ∧ Iterator_deref {| handle := Some a |} m2 = Ok v m2.
Proof.
  intros Ha Hv Hb. eexists. split.
  { rewrite resume_unfold. eapply resume_with_return; eauto. }
  simpl. split.
  - eapply done_at_final; [apply heap_set_insert|done].
  - unfold Iterator_deref, handle_promise. simpl.
    erewrite bind_Ok; [|erewrite bind_Ok;
      [reflexivity|apply frame_at_Some, heap_set_insert]].
    simpl. by rewrite Hv.
Qed.

(** C3, as the code has it: on a completed frame [operator!=] answers
    [false] and changes nothing, as often as it is asked; [operator++]
    resumes the frame unguarded, which is undefined at the final suspend
    point. *)
Theorem completed_frame_done_but_not_resumable (fuel : nat) a m f :
  heap m !! a = Some f → point f = FinalSuspend →
  Iterator_ne {| handle := Some a |} m = Ok false m
  ∧ Iterator_incr (run C fuel) {| handle := Some a |} m = Undefined.
Proof.
  intros Ha Hf. split.
  - unfold Iterator_ne. simpl.
    by rewrite (bind_Ok _ _ _ _ _ (done_at_final _ _ _ Ha Hf)).
  - unfold Iterator_incr. simpl.
    change (eresume (run C fuel) a) with (resume C fuel a).
    rewrite resume_unfold. eapply resume_with_final; eauto.
Qed.

(** *** Errors of the producer *)

(** C8, as the code has it: an exception that leaves the producer body
    reaches [unhandled_exception], which calls [std::terminate]: the
    resume that ran the body does not return, whether it was made
    directly, by [operator++] or by [begin]. *)
Theorem producer_error_terminates (fuel : nat) a m f l e m1 :
  heap m !! a = Some f →
  point f = InitialSuspend l ∨ point f = YieldSuspend l →
  body C (inner C fuel) l m = Raised e m1 →
  resume C fuel a m = Terminated
  ∧ Iterator_incr (run C fuel) {| handle := Some a |} m = Terminated
  ∧ begin (run C fuel) {| coro := Some a |} m = Terminated.
Proof.
  intros Ha Hf Hb.
  assert (resume C fuel a m = Terminated) as Hr
    by (rewrite resume_unfold; eapply resume_with_raised; eauto).
  split; [done|]. split; [exact Hr|].
  unfold begin, handle_resume. cbn [coro]. by apply bind_Terminated.
Qed.

(** *** Empty handles *)

Lemma null_handle_undefined E m :
  handle_resume E None m = Undefined
  ∧ handle_done None m = @Undefined _ bool
  ∧ handle_promise None m = @Undefined _ (promise_type T)
  ∧ handle_destroy E None m = Undefined.
Proof. done. Qed.

Lemma null_iterator_undefined E m :
  Iterator_ne {| handle := None |} m = @Undefined (machine T L) bool
  ∧ Iterator_incr E {| handle := None |} m = Undefined
  ∧ Iterator_deref {| handle := None |} m = @Undefined (machine T L) T.
Proof. done. Qed.

Lemma begin_empty_undefined E m :
  begin E {| coro := None |} m = Undefined.
Proof. done. Qed.

Lemma dtor_empty E m : Generator_dtor E {| coro := None |} m = Ok () m.
Proof. done. Qed.
End Protocol.

(** ** The producers of the sources *)

Local Ltac by_fuel fuel := destruct fuel; vm_compute; reflexivity.

(** C1: iterating [range(1, 6)] through [begin] and the cursor gives
    1, 2, 3, 4, 5 in that order and nothing more: the loop stops because
    [operator!=] answers [false], the frame being at its final suspend point
    with [finished] set; [testRange] prints these five numbers and leaves no
    frame behind. *)
Theorem range_1_6_yields_1_to_5 (fuel k : nat) :
  let E := run range_coroutine fuel in
  let it := {| handle := Some 0%nat |} in
  let m := {| heap := {[0%nat := Frame FinalSuspend (Promise (Some 5) true)]};
              vars := ∅; out := [] |} in
  (g ← range E 1 6 range_default_step; it ← begin E g;
   vs ← take E (6 + k) it; mret (it, vs)) empty_machine
    = Ok (it, [1; 2; 3; 4; 5]) m
  ∧ Iterator_ne it m = Ok false m
  ∧ testRange (6 + k) empty_machine
    = Ok () {| heap := ∅; vars := ∅;
               out := [Line (nl +:+ "🧪 2. 范围生成器");
                       Item 1; Item 2; Item 3; Item 4; Item 5] |}.
Proof. repeat split; by_fuel fuel. Qed.

(** A resume of a [fibonacci] frame suspended at its [co_yield] yields again,
    with the same live frames and the two locals updated, or overflows in
    [b += a]; it never completes the frame. *)
Lemma fibonacci_resume_footprint (fuel : nat)
    (h : gmap addr (frame Z fibonacci_locals)) vs o (a0 : addr) (a b : Z) p :
  let m := {| heap := <[a0 := Frame (YieldSuspend (fibonacci_yield a b)) p]> h;
              vars := vs; out := o |} in
  match resume fibonacci_coroutine fuel a0 m with
  | Ok _ m' =>
      dom (heap m') = dom (heap m)
      ∧ heap m' !! a0
        = Some (Frame (YieldSuspend (fibonacci_yield b (a + b)))
                      (Promise (Some b) (finished p)))
  | Undefined => in_int (a + b) = false
  | _ => False
  end.
Proof.
  intros m. rewrite resume_unfold.
  assert (heap m !! a0 = Some (Frame (YieldSuspend (fibonacci_yield a b)) p))
    as Ha by apply lookup_insert_eq.
  destruct (in_int (a + b)) eqn:Hin.
  - erewrite resume_with_yield; [|exact Ha|by right|].
    2:{ cbn. unfold int_add. rewrite Hin. reflexivity. }
    split; [|apply heap_set_insert].
    cbn. by rewrite insert_insert_eq, !dom_insert_L.
  - erewrite resume_with_undefined; [done|exact Ha|by right|].
    cbn. unfold int_add. by rewrite Hin.
Qed.

(** C5: the first ten values read from [fibonacci()] are
    0, 1, 1, 2, 3, 5, 8, 13, 21, 34; at each of them one frame is alive, the
    generator's, which holds the two [int]s [a] and [b]; after the tenth the
    generator still has a value to give; [testFibonacci] prints these ten
    numbers and leaves no frame behind.  However many values have been
    consumed, a further resume keeps the set of live frames as it is and
    never completes the frame: it yields, or overflows in [b += a]. *)
Theorem fibonacci_first_10 (fuel k : nat) :
  let E := run fibonacci_coroutine fuel in
  let it := {| handle := Some 0%nat |} in
  let m := {| heap := {[0%nat := Frame (YieldSuspend (fibonacci_yield 34 55))
                                       (Promise (Some 34) false)]};
              vars := ∅; out := [] |} in
  (g ← fibonacci E; it ← begin E g;
   vs ← take_footprint E 10 it; mret (it, vs)) empty_machine
    = Ok (it, (λ v, (v, 1%nat)) <$> [0; 1; 1; 2; 3; 5; 8; 13; 21; 34]) m
  ∧ Iterator_ne it m = Ok true m
  ∧ testFibonacci (10 + k) empty_machine
    = Ok () {| heap := ∅; vars := ∅;
               out := [Line (nl +:+ "🧪 1. Fibonacci 生成器");
                       Item 0; Item 1; Item 1; Item 2; Item 3; Item 5;
                       Item 8; Item 13; Item 21; Item 34] |}
  ∧ (∀ h vs o (a0 : addr) (a b : Z) p,
       let m := {| heap := <[a0 := Frame (YieldSuspend (fibonacci_yield a b)) p]> h;
                   vars := vs; out := o |} in
       match resume fibonacci_coroutine fuel a0 m with
       | Ok _ m' =>
           dom (heap m') = dom (heap m)
           ∧ heap m' !! a0
             = Some (Frame (YieldSuspend (fibonacci_yield b (a + b)))
                           (Promise (Some b) (finished p)))
       | Undefined => in_int (a + b) = false
       | _ => False
       end).
Proof.
  split; [by_fuel fuel|]. split; [by_fuel fuel|]. split; [by_fuel fuel|].
  intros. apply fibonacci_resume_footprint.
Qed.

(** C6: iterating [inorder] over the tree 4 → (2 → (1, 3), 6 → (5, 7))
    gives 1, 2, 3, 4, 5, 6, 7 in that order and then completes, the
    generators of the subtrees having been destroyed; [testTreeTraversal]
    prints these seven numbers and leaves no frame behind.  The tree is
    three levels deep: the engine drives generators nested two deep. *)
Theorem inorder_test_root (fuel k : nat) :
  let E := run inorder_coroutine (2 + fuel) in
  let it := {| handle := Some 0%nat |} in
  let m := {| heap := {[0%nat := Frame FinalSuspend (Promise (Some 7) true)]};
              vars := ∅; out := [] |} in
  (g ← inorder E (Some test_root); it ← begin E g;
   vs ← take E (8 + k) it; mret (it, vs)) empty_machine
    = Ok (it, [1; 2; 3; 4; 5; 6; 7]) m
  ∧ Iterator_ne it m = Ok false m
  ∧ testTreeTraversal (8 + k) empty_machine
    = Ok () {| heap := ∅; vars := ∅;
               out := [Line (nl +:+ "🧪 3. 树遍历生成器");
                       Item 1; Item 2; Item 3; Item 4; Item 5; Item 6;
                       Item 7] |}.
Proof. repeat split; by_fuel fuel. Qed.

(** ** Concrete runs of the protocol *)

(** The claim C2, that reading the current value of a completed generator
    fails explicitly, is false for [range(1, 2)]: after the producer has
    returned, [operator*] returns 1, the last value yielded. *)
Lemma read_after_completion_counterexample :
  let E := run range_coroutine 0 in
  let it := {| handle := Some 0%nat |} in
  let m := {| heap := {[0%nat := Frame FinalSuspend (Promise (Some 1) true)]};
              vars := ∅; out := [] |} in
  (g ← range E 1 2 range_default_step; it ← begin E g;
   Iterator_incr E it;; mret it) empty_machine = Ok it m
  ∧ handle_done (handle it) m = Ok true m
  ∧ Iterator_deref it m = Ok 1 m
  ∧ ¬ fails_explicitly (Iterator_deref it m).
Proof.
  repeat split; try (vm_compute; reflexivity).
  intros [H | (e & s & H)]; vm_compute in H; discriminate.
Qed.

Lemma read_after_completion_witness :
  let m : machine Z range_locals :=
    {| heap := {[0%nat := Frame (YieldSuspend (range_yield 2 1 1))
                                (Promise (Some 1) false)]};
       vars := ∅; out := [] |} in
  ∃ m2, resume range_coroutine 0 0%nat m = Ok () m2
    ∧ handle_done (Some 0%nat) m2 = Ok true m2
    ∧ Iterator_deref {| handle := Some 0%nat |} m2 = Ok 1 m2.
Proof.
  intros m.
  apply (read_after_completion_is_stale range_coroutine 0 0%nat m
           (range_yield 2 1 1) (Promise (Some 1) false) 1 m);
    reflexivity.
Defined.

(** The claim C3, that advancing a completed frame is a no-op that reports
    completion again, is false for [range(1, 2)]: once the producer has
    returned, [operator++] does not return at all; it is undefined. *)
Lemma resume_completed_counterexample :
  let E := run range_coroutine 0 in
  let it := {| handle := Some 0%nat |} in
  let m := {| heap := {[0%nat := Frame FinalSuspend (Promise (Some 1) true)]};
              vars := ∅; out := [] |} in
  (g ← range E 1 2 range_default_step; it ← begin E g;
   Iterator_incr E it;; mret it) empty_machine = Ok it m
  ∧ handle_done (handle it) m = Ok true m
  ∧ Iterator_incr E it m = Undefined
  ∧ ¬ ∃ m', Iterator_incr E it m = Ok () m'.
Proof.
  repeat split; try (vm_compute; reflexivity).
  intros (m' & H); vm_compute in H; discriminate.
Qed.

Lemma completed_frame_witness :
  let m : machine Z range_locals :=
    {| heap := {[0%nat := Frame FinalSuspend (Promise (Some 1) true)]};
       vars := ∅; out := [] |} in
  Iterator_ne {| handle := Some 0%nat |} m = Ok false m
  ∧ Iterator_incr (run range_coroutine 0) {| handle := Some 0%nat |} m
    = Undefined.
Proof.
  intros m.
  apply (completed_frame_done_but_not_resumable range_coroutine 0 0%nat m
           (Frame FinalSuspend (Promise (Some 1) true)));
    reflexivity.
Defined.

(** The claim C8, that an error of the producer is delivered to the resume
    that triggered it and leaves a frame that can be destroyed, is false
    for [faulty]: the [operator++] that runs the [throw] terminates the
    program; no exception and no state come back. *)
Lemma producer_error_counterexample :
  let E := run faulty_coroutine 0 in
  let it := {| handle := Some 0%nat |} in
  let m := {| heap := {[0%nat := Frame (YieldSuspend faulty_yield)
                                       (Promise (Some 1) false)]};
              vars := ∅; out := [] |} in
  (g ← coroutine_call E faulty_entry; begin E g) empty_machine = Ok it m
  ∧ Iterator_incr E it m = Terminated
  ∧ ¬ ∃ e m', Iterator_incr E it m = Raised e m'
              ∧ ∃ m'', Generator_dtor E {| coro := Some 0%nat |} m' = Ok () m''.
Proof.
  repeat split; try (vm_compute; reflexivity).
  intros (e & m' & H & _); vm_compute in H; discriminate.
Qed.

Lemma producer_error_witness :
  let m : machine Z faulty_locals :=
    {| heap := {[0%nat := Frame (YieldSuspend faulty_yield)
                                (Promise (Some 1) false)]};
       vars := ∅; out := [] |} in
  resume faulty_coroutine 0 0%nat m = Terminated
  ∧ Iterator_incr (run faulty_coroutine 0) {| handle := Some 0%nat |} m
    = Terminated
  ∧ begin (run faulty_coroutine 0) {| coro := Some 0%nat |} m = Terminated.
Proof.
  intros m.
  apply (producer_error_terminates faulty_coroutine 0 0%nat m
           (Frame (YieldSuspend faulty_yield) (Promise (Some 1) false))
           faulty_yield "boom" m);
    [reflexivity | by right | reflexivity].
Defined.

(** C7, the failing inputs: a producer that returns without yielding makes
    [begin] return the cursor on the null handle, and the loop test
    [operator!=] calls [done()] on it.  The range-based [for] over the empty
    [range(6, 1)] and over [inorder(nullptr)] is undefined, and so is
    [begin] on a moved-from generator. *)
Theorem empty_sequence_iteration_undefined (fuel n : nat) :
  range_for (run range_coroutine fuel) (S n)
    (range (run range_coroutine fuel) 6 1 range_default_step) ()
    (λ i _, println (Item i);; mret ((), false)) empty_machine = Undefined
  ∧ range_for (run inorder_coroutine fuel) (S n)
      (inorder (run inorder_coroutine fuel) None) ()
      (λ i _, println (Item i);; mret ((), false)) empty_machine = Undefined
  ∧ begin (run range_coroutine fuel) {| coro := None |} empty_machine
    = Undefined.
Proof. repeat split; destruct fuel; vm_compute; reflexivity. Qed.

(** Creating [traced()] prints nothing; [begin] prints its line. *)
Example traced_is_lazy :
  let E := run traced_coroutine 0 in
  ∃ g m0 it m1,
    coroutine_call E traced_entry empty_machine = Ok g m0 ∧ out m0 = []
    ∧ begin E g m0 = Ok it m1 ∧ out m1 = [Line "started"].
Proof. vm_compute. by eexists _, _, _, _. Qed.

(** ** Ownership *)

Section Ownership.
Context {T L : Type} (E : engine T L).
Implicit Types (m : machine T L) (g h : nat) (G H : Generator).

Lemma var_get_Some g m G : vars m !! g = Some G → var_get g m = Ok G m.
Proof. intros Hg. unfold var_get. by rewrite Hg. Qed.

Lemma var_set_coro_Some g m G c :
  vars m !! g = Some G →
  var_set_coro g c m = Ok () (set_vars <[g := {| coro := c |}]> m).
Proof.
  intros Hg. unfold var_set_coro.
  by rewrite (bind_Ok _ _ _ _ _ (var_get_Some _ _ _ Hg)).
Qed.

Lemma dtor_at_empty g m :
  vars m !! g = Some {| coro := None |} →
  Generator_dtor_at E g m = Ok () (set_vars (delete g) m).
Proof.
  intros Hg. unfold Generator_dtor_at.
  by rewrite (bind_Ok _ _ _ _ _ (var_get_Some _ _ _ Hg)).
Qed.

Lemma fresh_var_ne g m G :
  vars m !! g = Some G → g ≠ fresh (dom (vars m)).
Proof.
  intros Hg ->. apply (is_fresh (dom (vars m))), elem_of_dom. eauto.
Qed.

(** C9: move construction and move assignment hand the frame of the
    source [g] to the target and leave [g] empty, so that destroying [g]
    afterwards releases no frame; the assignment first releases the frame
    the target [h] owned; after it, destroying [g] and [h] destroys the
    transferred frame once, through [h]; assigning [g] to itself changes
    nothing; the destructor of an empty generator does nothing. *)
Theorem move_transfers_ownership g h m G H m1 :
  g ≠ h →
  vars m !! g = Some G → vars m !! h = Some H →
  Generator_dtor E H m = Ok () m1 → vars m1 = vars m →
  (let n := fresh (dom (vars m)) in
   let m' := set_vars (λ vs, <[g := {| coro := None |}]>
                               (<[n := {| coro := coro G |}]> vs)) m in
   Generator_move_ctor g m = Ok n m'
   ∧ Generator_dtor_at E g m' = Ok () (set_vars (delete g) m'))
  ∧ (let m' := set_vars (λ vs, <[g := {| coro := None |}]>
                                 (<[h := {| coro := coro G |}]> vs)) m1 in
     Generator_move_assign E h g m = Ok () m'
     ∧ Generator_dtor_at E g m' = Ok () (set_vars (delete g) m')
     ∧ (Generator_dtor_at E g;; Generator_dtor_at E h) m'
       = (Generator_dtor E G;; var_end h) (set_vars (delete g) m'))
  ∧ Generator_move_assign E g g m = Ok () m
  ∧ Generator_dtor E {| coro := None |} m = Ok () m.
Proof.
  intros Hne Hg Hh Hd Hv. destruct G as [c]. repeat split.
  - unfold Generator_move_ctor.
    rewrite (bind_Ok _ _ _ _ _ (var_get_Some _ _ _ Hg)).
    pose proof (fresh_var_ne _ _ _ Hg) as Hn.
    erewrite bind_Ok; [|reflexivity].
    erewrite bind_Ok; [reflexivity|].
    erewrite var_set_coro_Some; [reflexivity|].
    cbn. rewrite lookup_insert_ne by done. exact Hg.
  - apply dtor_at_empty. cbn. apply lookup_insert_eq.
  - unfold Generator_move_assign. rewrite decide_True by done.
    rewrite (bind_Ok _ _ _ _ _ (var_get_Some _ _ _ Hh)).
    change (if coro H is Some _ then handle_destroy E (coro H) else mret ())
      with (Generator_dtor E H).
    rewrite (bind_Ok _ _ _ _ _ Hd).
    assert (vars m1 !! g = Some {| coro := c |}) as Hg1 by (by rewrite Hv).
    assert (vars m1 !! h = Some H) as Hh1 by (by rewrite Hv).
    rewrite (bind_Ok _ _ _ _ _ (var_get_Some _ _ _ Hg1)).
    erewrite bind_Ok; [|eapply var_set_coro_Some; eauto].
    erewrite var_set_coro_Some; [reflexivity|].
    cbn. rewrite lookup_insert_ne by done. exact Hg1.
  - apply dtor_at_empty. cbn. apply lookup_insert_eq.
  - erewrite bind_Ok; [|apply dtor_at_empty; cbn; apply lookup_insert_eq].
    unfold Generator_dtor_at at 1.
    erewrite (bind_Ok (var_get h)); [reflexivity|].
    apply var_get_Some. cbn.
    rewrite lookup_delete_ne by done.
    rewrite lookup_insert_ne by done. apply lookup_insert_eq.
  - unfold Generator_move_assign. by rewrite decide_False by tauto.
Qed.
End Ownership.

Lemma move_transfers_ownership_witness :
  let E := run range_coroutine 0 in
  let fr := Frame (InitialSuspend (range_entry 1 6 1)) (Promise None false) in
  let m : machine Z range_locals :=
    {| heap := {[0%nat := fr; 1%nat := fr]};
       vars := {[0%nat := {| coro := Some 0%nat |};
                 1%nat := {| coro := Some 1%nat |}]};
       out := [] |} in
  let m' : machine Z range_locals :=
    {| heap := {[0%nat := fr]};
       vars := {[0%nat := {| coro := None |};
                 1%nat := {| coro := Some 0%nat |}]};
       out := [] |} in
  Generator_move_assign E 1%nat 0%nat m = Ok () m'
  ∧ (Generator_dtor_at E 0%nat;; Generator_dtor_at E 1%nat) m'
    = Ok () {| heap := ∅; vars := ∅; out := [] |}.
Proof.
  intros E fr m m'.
  destruct (move_transfers_ownership E 0%nat 1%nat m
              {| coro := Some 0%nat |} {| coro := Some 1%nat |}
              {| heap := {[0%nat := fr]}; vars := vars m; out := [] |})
    as (_ & (Ha & _ & Hd) & _);
    [done | reflexivity | reflexivity | vm_compute; reflexivity | reflexivity |].
  split.
  - rewrite Ha. vm_compute. reflexivity.
  - vm_compute. reflexivity.
Defined.

(** ** Termination of [range] *)

Lemma handle_done_Some {T L} a (m : machine T L) f :
  heap m !! a = Some f →
  handle_done (Some a) m
  = Ok (match point f with FinalSuspend => true | _ => false end) m.
Proof.
  intros Ha. unfold handle_done.
  by rewrite (bind_Ok _ _ _ _ _ (frame_at_Some _ _ _ Ha)).
Qed.

Lemma handle_promise_Some {T L} a (m : machine T L) f :
  heap m !! a = Some f → handle_promise (Some a) m = Ok (promise f) m.
Proof.
  intros Ha. unfold handle_promise.
  by rewrite (bind_Ok _ _ _ _ _ (frame_at_Some _ _ _ Ha)).
Qed.

Section Range.
Variable fuel : nat.
Local Abbreviation E := (run range_coroutine fuel).
Implicit Types (m : machine Z range_locals) (a : addr).

Lemma in_int_spec z : in_int z = true ↔ INT_MIN ≤ z ≤ INT_MAX.
Proof. unfold in_int. rewrite andb_true_iff, !Z.leb_le. tauto. Qed.

Lemma range_body_entry_lt start end_ step m :
  start < end_ →
  range_body (inner range_coroutine fuel) (range_entry start end_ step) m
  = Ok (Yield start (range_yield end_ step start)) m.
Proof.
  intros Hlt. cbn. unfold range_test.
  by rewrite (proj2 (Z.ltb_lt _ _) Hlt).
Qed.

Lemma range_body_entry_ge start end_ step m :
  end_ ≤ start →
  range_body (inner range_coroutine fuel) (range_entry start end_ step) m
  = Ok Return m.
Proof.
  intros Hge. cbn. unfold range_test.
  by rewrite (proj2 (Z.ltb_ge _ _) Hge).
Qed.

Lemma range_body_yield_lt end_ step i m :
  in_int (i + step) = true → i + step < end_ →
  range_body (inner range_coroutine fuel) (range_yield end_ step i) m
  = Ok (Yield (i + step) (range_yield end_ step (i + step))) m.
Proof.
  intros Hin Hlt. cbn. unfold int_add. rewrite Hin.
  unfold range_test. munfold.
  by rewrite (proj2 (Z.ltb_lt _ _) Hlt).
Qed.

Lemma range_body_yield_ge end_ step i m :
  in_int (i + step) = true → end_ ≤ i + step →
  range_body (inner range_coroutine fuel) (range_yield end_ step i) m
  = Ok Return m.
Proof.
  intros Hin Hge. cbn. unfold int_add. rewrite Hin.
  unfold range_test. munfold.
  by rewrite (proj2 (Z.ltb_ge _ _) Hge).
Qed.

Lemma range_body_yield_overflow end_ step i m :
  in_int (i + step) = false →
  range_body (inner range_coroutine fuel) (range_yield end_ step i) m
  = Undefined.
Proof. intros Hin. cbn. unfold int_add. by rewrite Hin. Qed.

Lemma range_at_observe a end_ step i m :
  range_at a end_ step i m →
  (d ← handle_done (Some a);
   if d : bool then mret None
   else p ← handle_promise (Some a); mret (value p)) m = Ok (Some i) m.
Proof.
  intros (p & Ha & Hp).
  rewrite (bind_Ok _ _ _ _ _ (handle_done_Some _ _ _ Ha)). cbn [point].
  rewrite (bind_Ok _ _ _ _ _ (handle_promise_Some _ _ _ Ha)).
  cbn [promise]. by rewrite <- Hp.
Qed.

Lemma final_observe a m p :
  heap m !! a = Some (Frame FinalSuspend p) →
  (d ← handle_done (Some a);
   if d : bool then mret None
   else p ← handle_promise (Some a); mret (value p)) m
  = Ok (@None Z) m.
Proof.
  intros Ha. by rewrite (bind_Ok _ _ _ _ _ (handle_done_Some _ _ _ Ha)).
Qed.

(** One resume of a frame suspended at [co_yield i]. *)
Lemma range_resume_next a end_ step i m :
  range_at a end_ step i m →
  in_int (i + step) = true → i + step < end_ →
  ∃ m', eresume E a m = Ok () m' ∧ range_at a end_ step (i + step) m'.
Proof.
  intros (p & Ha & Hp) Hin Hlt. eexists. split.
  - rewrite run_unfold. cbn [eresume].
    eapply resume_with_yield; [exact Ha|by right|].
    by apply range_body_yield_lt.
  - eexists. split; [apply heap_set_insert|done].
Qed.

Lemma range_resume_last a end_ step i m :
  range_at a end_ step i m →
  in_int (i + step) = true → end_ ≤ i + step →
  ∃ m' p, eresume E a m = Ok () m'
          ∧ heap m' !! a = Some (Frame FinalSuspend p).
Proof.
  intros (p & Ha & Hp) Hin Hge. eexists _, _. split.
  - rewrite run_unfold. cbn [eresume].
    eapply resume_with_return; [exact Ha|by right|].
    by apply range_body_yield_ge.
  - apply heap_set_insert.
Qed.

Lemma range_resume_overflow a end_ step i m :
  range_at a end_ step i m →
  in_int (i + step) = false →
  eresume E a m = Undefined.
Proof.
  intros (p & Ha & Hp) Hin.
  rewrite run_unfold. cbn [eresume].
  eapply resume_with_undefined; [exact Ha|by right|].
  by apply range_body_yield_overflow.
Qed.

(** [n] resumes in a row, all of which yield. *)
Lemma range_resumes a end_ step (n : nat) : ∀ i m,
  range_at a end_ step i m →
  (∀ k : Z, 1 ≤ k ≤ Z.of_nat n → in_int (i + k * step) = true ∧ i + k * step < end_) →
  ∃ m', resumes E n (Some a) m = Ok () m'
        ∧ range_at a end_ step (i + Z.of_nat n * step) m'.
Proof.
  induction n as [|n IH]; intros i m Hat Hk.
  - exists m. split; [done|]. by replace (i + Z.of_nat 0 * step) with i by lia.
  - destruct (Hk 1) as [Hin Hlt]; [lia|]. rewrite Z.mul_1_l in Hin, Hlt.
    destruct (range_resume_next _ _ _ _ _ Hat Hin Hlt) as (m1 & Hr & Hat1).
    destruct (IH (i + step) m1 Hat1) as (m2 & Hrs & Hat2).
    { intros k Hk'. replace (i + step + k * step) with (i + (k + 1) * step)
        by lia. apply Hk. lia. }
    exists m2. split.
    + cbn [resumes handle_resume]. by rewrite (bind_Ok _ _ _ _ _ Hr).
    + by replace (i + Z.of_nat (S n) * step) with (i + step + Z.of_nat n * step) by lia.
Qed.

Lemma resumes_S_r (n : nat) a : ∀ m m',
  resumes E n (Some a) m = Ok () m' →
  resumes E (S n) (Some a) m = eresume E a m'.
Proof.
  induction n as [|n IH]; intros m m' Hr.
  - injection Hr as <-. cbn [resumes handle_resume]. munfold.
    by destruct (eresume E a m) as [[] ?| | | |].
  - cbn [resumes handle_resume] in Hr.
    change (resumes E (S (S n)) (Some a) m)
      with ((eresume E a;; resumes E (S n) (Some a)) m).
    unfold mbind, M_bind in Hr |- *.
    destruct (eresume E a m) as [[] m1| | | |]; try discriminate.
    by apply IH.
Qed.

Section FromStart.
Variables (start end_ step : Z) (a : addr) (m0 : machine Z range_locals)
          (p0 : promise_type Z).
Hypothesis Hm0 :
  heap m0 !! a
  = Some (Frame (InitialSuspend (range_entry start end_ step)) p0).

(** With [end <= start] the first resume returns and leaves the frame at
    its final suspend point, no value having been yielded. *)
Lemma range_first_done :
  end_ ≤ start →
  ∃ m1, resumes E 1 (Some a) m0 = Ok () m1
    ∧ handle_done (Some a) m1 = Ok true m1
    ∧ handle_promise (Some a) m1 = Ok (return_void p0) m1.
Proof.
  intros Hge. cbn [resumes handle_resume].
  pose proof (resume_with_return range_coroutine _ a m0 _ _ m0 Hm0
                (or_introl eq_refl)
                (range_body_entry_ge start end_ step m0 Hge)) as Hr.
  eexists. split; [|split].
  - erewrite bind_Ok; [reflexivity|rewrite run_unfold; exact Hr].
  - by rewrite (handle_done_Some _ _ _ (heap_set_insert _ _ _)).
  - by rewrite (handle_promise_Some _ _ _ (heap_set_insert _ _ _)).
Qed.

(** The first [S n] resumes, all of which yield. *)
Lemma range_yields (n : nat) :
  start < end_ →
  (∀ k : Z, 1 ≤ k ≤ Z.of_nat n →
     in_int (start + k * step) = true ∧ start + k * step < end_) →
  ∃ m', resumes E (S n) (Some a) m0 = Ok () m'
        ∧ range_at a end_ step (start + Z.of_nat n * step) m'.
Proof.
  intros Hlt Hk.
  assert (∃ m1, eresume E a m0 = Ok () m1 ∧ range_at a end_ step start m1)
    as (m1 & Hr & Hat).
  { pose proof (resume_with_yield range_coroutine _ a m0 _ _ _ _ m0 Hm0
                  (or_introl eq_refl)
                  (range_body_entry_lt start end_ step m0 Hlt)) as Hr.
    eexists. split.
    - rewrite run_unfold. exact Hr.
    - eexists. split; [apply heap_set_insert|done]. }
  destruct (range_resumes a end_ step n start m1 Hat Hk) as (m' & Hrs & Hat').
  exists m'. split; [|done].
  cbn [resumes handle_resume]. by rewrite (bind_Ok _ _ _ _ _ Hr).
Qed.

Lemma range_nth_value (n : nat) :
  start < end_ →
  (∀ k : Z, 1 ≤ k ≤ Z.of_nat n →
     in_int (start + k * step) = true ∧ start + k * step < end_) →
  returns (nth_resume E (S n) (Some a) m0)
          (Some (start + Z.of_nat n * step)).
Proof.
  intros Hlt Hk. destruct (range_yields n Hlt Hk) as (m' & Hrs & Hat).
  exists m'. unfold nth_resume. rewrite (bind_Ok _ _ _ _ _ Hrs).
  exact (range_at_observe _ _ _ _ _ Hat).
Qed.

(** After [S n] resumes that yield, the next one is undefined when its
    [i += step] overflows. *)
Lemma range_resumes_overflow (n : nat) :
  start < end_ →
  (∀ k : Z, 1 ≤ k ≤ Z.of_nat n →
     in_int (start + k * step) = true ∧ start + k * step < end_) →
  in_int (start + Z.of_nat (S n) * step) = false →
  resumes E (S (S n)) (Some a) m0 = Undefined.
Proof.
  intros Hlt Hk Hov. destruct (range_yields n Hlt Hk) as (m' & Hrs & Hat).
  rewrite (resumes_S_r _ _ _ _ Hrs).
  eapply range_resume_overflow; [exact Hat|].
  by replace (start + Z.of_nat n * step + step)
    with (start + Z.of_nat (S n) * step) by lia.
Qed.

(** After [S n] resumes that yield, the next one returns and leaves the
    frame at its final suspend point when [i += step] reaches [end]. *)
Lemma range_last_done (n : nat) :
  start < end_ →
  (∀ k : Z, 1 ≤ k ≤ Z.of_nat n →
     in_int (start + k * step) = true ∧ start + k * step < end_) →
  in_int (start + Z.of_nat (S n) * step) = true →
  end_ ≤ start + Z.of_nat (S n) * step →
  ∃ m', resumes E (S (S n)) (Some a) m0 = Ok () m'
    ∧ handle_done (Some a) m' = Ok true m'.
Proof.
  intros Hlt Hk Hin Hge. destruct (range_yields n Hlt Hk) as (m' & Hrs & Hat).
  replace (start + Z.of_nat (S n) * step)
    with (start + Z.of_nat n * step + step) in Hin, Hge by lia.
  destruct (range_resume_last _ _ _ _ _ Hat Hin Hge) as (m2 & p & Hr & Hf).
  exists m2. split.
  - by rewrite (resumes_S_r _ _ _ _ Hrs).
  - by rewrite (handle_done_Some _ _ _ Hf).
Qed.
End FromStart.
End Range.

(** C10, as the code has it.  [range(start, end, step)] on [int]s:
    - with [end <= start], the first resume returns with the frame at its
      final suspend point ([done()] answers [true]) and no value in the
      promise;
    - with [start < end] and [step = 0], every resume yields [start]: the
      generator never completes;
    - with [start < end] and [step < 0], the sequence is not unending: the
      first [N = (start - INT_MIN) / -step + 1] resumes yield the decreasing
      values [start + n * step], these being [int]s, and none of them
      completes the frame; the resume after them is undefined, its
      [i += step] overflowing, and nothing is stated of what follows it;
    - with [start < end] and [0 < step], the first
      [N = (end - 1 - start) / step + 1] resumes yield the values
      [start + n * step] below [end]; the resume after them returns with
      the frame at its final suspend point when its [i += step] is an
      [int], and is undefined when it overflows. *)
Theorem range_termination (fuel : nat) (start end_ step : Z)
    (m : machine Z range_locals) :
  in_int start = true → in_int end_ = true → in_int step = true →
  let E := run range_coroutine fuel in
  let a := fresh (dom (heap m)) in
  let m0 := set_heap <[a := Frame (InitialSuspend (range_entry start end_ step))
                                  (Promise None false)]> m in
  range E start end_ step m = Ok {| coro := Some a |} m0
  ∧ (end_ ≤ start →
     ∃ m1, resumes E 1 (Some a) m0 = Ok () m1
       ∧ handle_done (Some a) m1 = Ok true m1
       ∧ handle_promise (Some a) m1 = Ok (Promise None true) m1)
  ∧ (start < end_ → step = 0 →
     ∀ n : nat, returns (nth_resume E (S n) (Some a) m0) (Some start))
  ∧ (start < end_ → step < 0 →
     let N := S (Z.to_nat ((start - INT_MIN) / - step)) in
     (∀ n : nat, (n < N)%nat →
        returns (nth_resume E (S n) (Some a) m0)
                (Some (start + Z.of_nat n * step)))
     ∧ resumes E (S N) (Some a) m0 = Undefined)
  ∧ (start < end_ → 0 < step →
     let N := S (Z.to_nat ((end_ - 1 - start) / step)) in
     (∀ n : nat, (n < N)%nat →
        returns (nth_resume E (S n) (Some a) m0)
                (Some (start + Z.of_nat n * step)))
     ∧ if in_int (start + Z.of_nat N * step)
       then ∃ m', resumes E (S N) (Some a) m0 = Ok () m'
                  ∧ handle_done (Some a) m' = Ok true m'
       else resumes E (S N) (Some a) m0 = Undefined).
Proof.
  intros Hs He Hst E a m0.
  apply in_int_spec in Hs, He, Hst. unfold INT_MIN, INT_MAX in Hs, He, Hst.
  assert (heap m0 !! a
          = Some (Frame (InitialSuspend (range_entry start end_ step))
                        (Promise None false))) as Hm0
    by apply heap_set_insert.
  split; [reflexivity|]. split; [|split; [|split]].
  - intros Hge.
    exact (range_first_done fuel start end_ step a m0 _ Hm0 Hge).
  - intros Hlt -> n.
    destruct (range_nth_value fuel start end_ 0 a m0 _ Hm0 n Hlt)
      as (s & Hn).
    { intros k _. replace (start + k * 0) with start by lia.
      split; [apply in_int_spec; unfold INT_MIN, INT_MAX|]; lia. }
    exists s. etrans; [exact Hn|]. do 2 f_equal. lia.
  - intros Hlt Hneg N.
    set (q := (start - INT_MIN) / - step) in *.
    assert (0 ≤ q) as Hq0 by (apply Z.div_pos; unfold INT_MIN; lia).
    assert (- step * q ≤ start - INT_MIN) as Hq1
      by (apply Z.mul_div_le; lia).
    assert (start - INT_MIN < - step * Z.succ q) as Hq2
      by (apply Z.mul_succ_div_gt; lia).
    unfold INT_MIN in Hq1, Hq2.
    assert (∀ n : nat, (n < N)%nat → ∀ k : Z, 1 ≤ k ≤ Z.of_nat n →
              in_int (start + k * step) = true ∧ start + k * step < end_)
      as Hok.
    { intros n Hn k Hk. subst N. split.
      - apply in_int_spec. unfold INT_MIN, INT_MAX. nia.
      - nia. }
    split.
    + intros n Hn.
      apply (range_nth_value fuel start end_ step a m0 _ Hm0 _ Hlt).
      by apply Hok.
    + subst N.
      apply (range_resumes_overflow fuel start end_ step a m0 _ Hm0 _ Hlt).
      * apply Hok. lia.
      * apply not_true_is_false. rewrite in_int_spec.
        unfold INT_MIN, INT_MAX. nia.
  - intros Hlt Hpos N.
    set (q := (end_ - 1 - start) / step) in *.
    assert (0 ≤ q) as Hq0 by (apply Z.div_pos; lia).
    assert (step * q ≤ end_ - 1 - start) as Hq1
      by (apply Z.mul_div_le; lia).
    assert (end_ - 1 - start < step * Z.succ q) as Hq2
      by (apply Z.mul_succ_div_gt; lia).
    assert (∀ n : nat, (n < N)%nat → ∀ k : Z, 1 ≤ k ≤ Z.of_nat n →
              in_int (start + k * step) = true ∧ start + k * step < end_)
      as Hok.
    { intros n Hn k Hk. subst N. split.
      - apply in_int_spec. unfold INT_MIN, INT_MAX. nia.
      - nia. }
    split.
    + intros n Hn.
      apply (range_nth_value fuel start end_ step a m0 _ Hm0 _ Hlt).
      by apply Hok.
    + subst N.
      destruct (in_int (start + Z.of_nat (S (Z.to_nat q)) * step)) eqn:Hin.
      * apply (range_last_done fuel start end_ step a m0 _ Hm0 _ Hlt);
          [apply Hok; lia | exact Hin | nia].
      * apply (range_resumes_overflow fuel start end_ step a m0 _ Hm0 _ Hlt);
          [apply Hok; lia | exact Hin].
Qed.

Lemma range_termination_witness :
  in_int 1 = true ∧ in_int 6 = true ∧ in_int range_default_step = true
  ∧ ∃ m', resumes (run range_coroutine 0) 6 (Some 0%nat)
            {| heap := {[0%nat := Frame (InitialSuspend (range_entry 1 6 1))
                                        (Promise None false)]};
               vars := ∅; out := [] |} = Ok () m'
          ∧ handle_done (Some 0%nat) m' = Ok true m'.
Proof.
  repeat split.
  destruct (range_termination 0 1 6 1 empty_machine)
    as (_ & _ & _ & _ & H); [reflexivity..|].
  destruct H as [_ H]; [lia | lia |]. exact H.
Defined.

(** The claim C10, that [range] with [start < end] and [step < 0] yields an
    unending decreasing sequence, is false for [range(-1, 0, INT_MIN)]: the
    first resume yields -1 and the second overflows in [i += step]. *)
Lemma range_negative_step_counterexample :
  let E := run range_coroutine 0 in
  let g := {| coro := Some 0%nat |} in
  let m0 := {| heap := {[0%nat := Frame (InitialSuspend
                                           (range_entry (-1) 0 INT_MIN))
                                        (Promise None false)]};
               vars := ∅; out := [] |} in
  range E (-1) 0 INT_MIN empty_machine = Ok g m0
  ∧ returns (nth_resume E 1 (coro g) m0) (Some (-1))
  ∧ nth_resume E 2 (coro g) m0 = Undefined
  ∧ ¬ (∀ n : nat, ∃ v, returns (nth_resume E (S n) (coro g) m0) (Some v)).
Proof.
  repeat split.
  - vm_compute. by eexists.
  - intros H. destruct (H 1%nat) as (v & s & Hv). vm_compute in Hv.
    discriminate.
Qed.


(** ** The adapter on a live frame *)

Lemma iterator_live_any {T L} c (m : machine T L) f l (x : T) :
  heap m !! c = Some f → point f = YieldSuspend l →
  value (promise f) = Some x →
  Iterator_ne {| handle := Some c |} m = Ok true m
  ∧ Iterator_deref {| handle := Some c |} m = Ok x m.
Proof.
  intros Hf Hp Hv. unfold Iterator_ne, Iterator_deref. cbn [handle]. split.
  - rewrite (bind_Ok _ _ _ _ _ (handle_done_Some _ _ _ Hf)). by rewrite Hp.
  - rewrite (bind_Ok _ _ _ _ _ (handle_promise_Some _ _ _ Hf)). by rewrite Hv.
Qed.

Lemma iterator_done_any {T L} c (m : machine T L) f :
  heap m !! c = Some f → point f = FinalSuspend →
  Iterator_ne {| handle := Some c |} m = Ok false m.
Proof.
  intros Hf Hp. unfold Iterator_ne. cbn [handle].
  rewrite (bind_Ok _ _ _ _ _ (handle_done_Some _ _ _ Hf)). by rewrite Hp.
Qed.

Lemma begin_live_any {T L} (E : engine T L) c (m m' : machine T L) f l :
  eresume E c m = Ok () m' →
  heap m' !! c = Some f → point f = YieldSuspend l →
  begin E {| coro := Some c |} m = Ok {| handle := Some c |} m'.
Proof.
  intros Hr Hf Hp. unfold begin, handle_resume. cbn [coro].
  rewrite (bind_Ok _ _ _ _ _ Hr).
  rewrite (bind_Ok _ _ _ _ _ (handle_done_Some _ _ _ Hf)). by rewrite Hp.
Qed.

Lemma begin_done_any {T L} (E : engine T L) c (m m' : machine T L) f :
  eresume E c m = Ok () m' →
  heap m' !! c = Some f → point f = FinalSuspend →
  begin E {| coro := Some c |} m = Ok {| handle := None |} m'.
Proof.
  intros Hr Hf Hp. unfold begin, handle_resume. cbn [coro].
  rewrite (bind_Ok _ _ _ _ _ Hr).
  rewrite (bind_Ok _ _ _ _ _ (handle_done_Some _ _ _ Hf)). by rewrite Hp.
Qed.

(** X6. For every producer whose body returns before its first [co_yield],
    the range-based [for] over the generator is undefined, whatever the
    loop body: [begin] returns the cursor on the null handle and the first
    loop test calls [done()] on it. *)
Theorem loop_over_empty_sequence_undefined {T L St} (C : coroutine T L)
    (fuel N : nat) (l0 : L) (s : St)
    (loop_body : T → St → M (machine T L) (St * bool)) (m m1 : machine T L) :
  let E := run C fuel in
  let a := fresh (dom (heap m)) in
  body C (inner C fuel) l0
    (set_heap <[a := Frame (InitialSuspend l0) (Promise None false)]> m)
  = Ok Return m1 →
  range_for E (S N) (coroutine_call E l0) s loop_body m = Undefined.
Proof.
  intros E a Hb. unfold range_for.
  erewrite bind_Ok by reflexivity.
  erewrite bind_Ok.
  2:{ eapply begin_done_any.
      - subst E. rewrite run_unfold. cbn [eresume].
        eapply resume_with_return; [apply heap_set_insert|by left|exact Hb].
      - apply heap_set_insert.
      - reflexivity. }
  reflexivity.
Qed.

Lemma loop_over_empty_sequence_undefined_witness :
  range_for (run range_coroutine 0) 1
    (range (run range_coroutine 0) 6 1 range_default_step) ()
    (λ i _, println (Item i);; mret ((), false)) empty_machine = Undefined.
Proof.
  apply (loop_over_empty_sequence_undefined range_coroutine 0 0
           (range_entry 6 1 1) () _ empty_machine
           (set_heap <[0%nat := Frame (InitialSuspend (range_entry 6 1 1))
                                      (Promise None false)]> empty_machine)).
  reflexivity.
Defined.

Lemma resumes_snoc {T L} (E : engine T L) (n : nat) a : ∀ m m',
  resumes E n (Some a) m = Ok () m' →
  resumes E (S n) (Some a) m = eresume E a m'.
Proof.
  induction n as [|n IH]; intros m m' Hr.
  - injection Hr as <-. cbn [resumes handle_resume]. munfold.
    by destruct (eresume E a m) as [[] ?| | | |].
  - cbn [resumes handle_resume] in Hr.
    change (resumes E (S (S n)) (Some a) m)
      with ((eresume E a;; resumes E (S n) (Some a)) m).
    unfold mbind, M_bind in Hr |- *.
    destruct (eresume E a m) as [[] m1| | | |]; try discriminate.
    by apply IH.
Qed.

Section AfterResume.
Context {T L : Type} (C : coroutine T L).
Implicit Types (m : machine T L) (a : addr) (f : frame T L).

Lemma destroy_with_frees E a m m' :
  destroy_with C E a m = Ok () m' → heap m' !! a = None.
Proof.
  unfold destroy_with, frame_at, free_frame, modify, mbind, M_bind.
  destruct (heap m !! a) as [f|]; [|done].
  destruct (match point f with
            | InitialSuspend l | YieldSuspend l => drop C E l
            | FinalSuspend => mret ()
            end m) as [[] m1| | | |]; try done.
  intros [= <-]. apply lookup_delete_eq.
Qed.

(** X7. When the generator has been destroyed, a cursor that was taken from
    it dangles: its three operations are undefined, and so is a second
    destruction of the same frame. *)
Theorem cursor_dangles_after_destruction (fuel : nat) a m m' :
  let E := run C fuel in
  Generator_dtor E {| coro := Some a |} m = Ok () m' →
  Iterator_ne {| handle := Some a |} m' = Undefined
  ∧ Iterator_deref {| handle := Some a |} m' = Undefined
  ∧ Iterator_incr E {| handle := Some a |} m' = Undefined
  ∧ Generator_dtor E {| coro := Some a |} m' = Undefined.
Proof.
  intros E Hd. subst E.
  unfold Generator_dtor, handle_destroy in Hd |- *. cbn [coro] in Hd |- *.
  rewrite run_unfold in Hd |- *. cbn [edestroy] in Hd |- *.
  apply destroy_with_frees in Hd.
  assert (frame_at a m' = @Undefined _ (frame T L)) as Hf
    by (by apply frame_at_None).
  unfold Iterator_ne, Iterator_deref, Iterator_incr, handle_done,
    handle_promise, handle_resume. cbn [handle eresume].
  unfold resume_with, destroy_with.
  repeat split; repeat (apply bind_Undefined); exact Hf.
Qed.

(** What a resume that returns leaves in the frame. *)
Lemma resume_with_Ok_inv E a m m' f :
  heap m !! a = Some f → resume_with C E a m = Ok () m' →
  ∃ f', heap m' !! a = Some f'
    ∧ ((∃ l v, point f' = YieldSuspend l
               ∧ promise f' = yield_value v (promise f))
       ∨ (point f' = FinalSuspend ∧ promise f' = return_void (promise f))).
Proof.
  intros Ha. unfold resume_with.
  rewrite (bind_Ok _ _ _ _ _ (frame_at_Some _ _ _ Ha)).
  assert (∀ l, (s ← coroutine_boundary (body C E l);
                match s with
                | Yield v l' =>
                    store_frame a {| point := YieldSuspend l';
                                     promise := yield_value v (promise f) |}
                | Return =>
                    let p := return_void (promise f) in
                    if await_ready final_suspend then free_frame a
                    else store_frame a {| point := FinalSuspend; promise := p |}
                end) m = Ok () m' →
          ∃ f', heap m' !! a = Some f'
            ∧ ((∃ l v, point f' = YieldSuspend l
                       ∧ promise f' = yield_value v (promise f))
               ∨ (point f' = FinalSuspend
                  ∧ promise f' = return_void (promise f)))) as Hbody.
  { intros l. unfold mbind, M_bind, coroutine_boundary.
    destruct (body C E l m) as [[v l'|] m1|e m1| | |]; try done.
    - intros [= <-]. eexists. split; [apply heap_set_insert|]. left. by eexists _, _.
    - intros [= <-]. eexists. split; [apply heap_set_insert|]. by right. }
  destruct (point f) as [l|l|]; [apply Hbody..|done].
Qed.

(** X8. The flag [finished] of the promise follows the frame: after every
    resume that returns, on a frame whose flag was not yet set, the flag is
    set exactly when the frame is at its final suspend point, that is, it
    is what [done()] answers. *)
Theorem finished_tracks_done (fuel : nat) a m m' f :
  heap m !! a = Some f → finished (promise f) = false →
  resume C fuel a m = Ok () m' →
  ∃ f', heap m' !! a = Some f'
    ∧ (finished (promise f') = true ↔ point f' = FinalSuspend)
    ∧ handle_done (Some a) m' = Ok (finished (promise f')) m'.
Proof.
  intros Ha Hfin Hr. rewrite resume_unfold in Hr.
  destruct (resume_with_Ok_inv _ _ _ _ _ Ha Hr)
    as (f' & Hf' & [(l & v & Hp & Hpr)|[Hp Hpr]]);
    exists f'; (split; [done|]);
    rewrite (handle_done_Some _ _ _ Hf'), Hp, Hpr; cbn; rewrite ?Hfin;
    split; done.
Qed.

(** X9. [begin] does not restart a generator: on a generator that is
    suspended at a [co_yield], [begin] resumes it, so that the cursor it
    returns is on the next value and the value that was current is
    skipped. *)
Theorem begin_again_advances (fuel : nat) a m f l v l' m1 :
  heap m !! a = Some f → point f = YieldSuspend l →
  body C (inner C fuel) l m = Ok (Yield v l') m1 →
  ∃ m2, begin (run C fuel) {| coro := Some a |} m
        = Ok {| handle := Some a |} m2
    ∧ Iterator_deref {| handle := Some a |} m2 = Ok v m2.
Proof.
  intros Ha Hp Hb.
  pose proof (resume_with_yield C _ a m f l v l' m1 Ha (or_intror Hp) Hb) as Hr.
  eexists. split.
  - eapply (begin_live_any _ a m _ (Frame _ _));
      [rewrite run_unfold; exact Hr|apply heap_set_insert|reflexivity].
  - unfold Iterator_deref. cbn [handle].
    erewrite bind_Ok by (apply handle_promise_Some, heap_set_insert).
    reflexivity.
Qed.
End AfterResume.

Lemma cursor_dangles_after_destruction_witness :
  let E := run range_coroutine 0 in
  let m : machine Z range_locals :=
    {| heap := {[0%nat := Frame (YieldSuspend (range_yield 6 1 2))
                                (Promise (Some 2) false)]};
       vars := ∅; out := [] |} in
  Iterator_ne {| handle := Some 0%nat |} (@empty_machine Z range_locals)
  = Undefined
  ∧ Iterator_deref {| handle := Some 0%nat |} (@empty_machine Z range_locals)
    = Undefined
  ∧ Iterator_incr E {| handle := Some 0%nat |} empty_machine = Undefined
  ∧ Generator_dtor E {| coro := Some 0%nat |} empty_machine = Undefined.
Proof.
  intros E m.
  apply (cursor_dangles_after_destruction range_coroutine 0 0%nat m
           empty_machine).
  reflexivity.
Defined.

Lemma finished_tracks_done_witness :
  let m : machine Z range_locals :=
    {| heap := {[0%nat := Frame (YieldSuspend (range_yield 2 1 1))
                                (Promise (Some 1) false)]};
       vars := ∅; out := [] |} in
  let m' : machine Z range_locals :=
    {| heap := {[0%nat := Frame FinalSuspend (Promise (Some 1) true)]};
       vars := ∅; out := [] |} in
  ∃ f', heap m' !! 0%nat = Some f'
    ∧ (finished (promise f') = true ↔ point f' = FinalSuspend)
    ∧ handle_done (Some 0%nat) m' = Ok (finished (promise f')) m'.
Proof.
  intros m m'.
  apply (finished_tracks_done range_coroutine 0 0%nat m m'
           (Frame (YieldSuspend (range_yield 2 1 1)) (Promise (Some 1) false)));
    reflexivity.
Defined.

Lemma begin_again_advances_witness :
  let m : machine Z range_locals :=
    {| heap := {[0%nat := Frame (YieldSuspend (range_yield 6 1 1))
                                (Promise (Some 1) false)]};
       vars := ∅; out := [] |} in
  ∃ m2, begin (run range_coroutine 0) {| coro := Some 0%nat |} m
        = Ok {| handle := Some 0%nat |} m2
    ∧ Iterator_deref {| handle := Some 0%nat |} m2 = Ok 2 m2.
Proof.
  intros m.
  apply (begin_again_advances range_coroutine 0 0%nat m
           (Frame (YieldSuspend (range_yield 6 1 1)) (Promise (Some 1) false))
           (range_yield 6 1 1) 2 (range_yield 6 1 2) m);
    reflexivity.
Defined.
(** ** In-order traversal of any tree *)

Lemma flatten_unfold t :
  flatten t = flatten_opt (node_left t) ++ node_value t :: flatten_opt (node_right t).
Proof. by destruct t as [v [l|] [r|]]. Qed.

Lemma height_left t lt : node_left t = Some lt → (height lt < height t)%nat.
Proof. destruct t as [v l r]. cbn. intros ->. lia. Qed.

Lemma height_right t rt : node_right t = Some rt → (height rt < height t)%nat.
Proof. destruct t as [v l r]. cbn. intros ->. lia. Qed.

Lemma height_pos t : (1 ≤ height t)%nat.
Proof. destruct t. cbn. lia. Qed.

Lemma flatten_nonempty t : (1 ≤ length (flatten t))%nat.
Proof. rewrite flatten_unfold, length_app. cbn. lia. Qed.

Section HeapAlgebra.
Context {V : Type}.
Implicit Types (own rest : gmap addr V).

Lemma union_insert_swap own rest a fr :
  own !! a = None → <[a := fr]> own ∪ rest = own ∪ <[a := fr]> rest.
Proof.
  intros Ha. apply map_eq. intros x.
  rewrite !lookup_union. destruct (decide (x = a)) as [->|Hne].
  - rewrite !lookup_insert_eq, Ha. by destruct (rest !! a).
  - by rewrite !lookup_insert_ne.
Qed.

Lemma store_back own rest a old new :
  <[a := new]> (own ∪ <[a := old]> rest) = <[a := new]> own ∪ rest.
Proof.
  apply map_eq. intros x. destruct (decide (x = a)) as [->|Hne].
  - rewrite lookup_insert_eq, lookup_union, lookup_insert_eq.
    by destruct (rest !! a).
  - rewrite lookup_insert_ne, !lookup_union, !lookup_insert_ne by done. done.
Qed.

Lemma singleton_union own a fr (rest : gmap addr V) :
  ({[a := fr]} : gmap addr V) ∪ rest = <[a := fr]> rest.
Proof. by rewrite insert_union_singleton_l. Qed.

Lemma delete_insert_fresh rest a fr :
  rest !! a = None → delete a (<[a := fr]> rest) = rest.
Proof. intros Ha. by rewrite delete_insert_eq, delete_id. Qed.

Lemma disjoint_singleton_None a fr rest :
  ({[a := fr]} : gmap addr V) ##ₘ rest → rest !! a = None.
Proof. intros H. by apply map_disjoint_singleton_l in H. Qed.

End HeapAlgebra.

Section InorderAny.
Implicit Types (own rest : gmap addr (frame Z inorder_locals))
  (t lt rt : TreeNode) (a c : addr).

Local Abbreviation Mk := (Machine (T:=Z) (L:=inorder_locals)).

(** The frame at the root of a generator state. *)
Lemma gen_state_root a t k own :
  gen_state a t k own →
  ∃ f, own !! a = Some f
    ∧ match point f with
      | InitialSuspend _ => k = 0%nat
      | YieldSuspend _ =>
          (1 ≤ k ≤ length (flatten t))%nat
          ∧ value (promise f) = flatten t !! (k - 1)%nat
      | FinalSuspend => k = S (length (flatten t))
      end.
Proof.
  intros Hg. destruct Hg as [a t p|a t lt c k own p x Hl Hc Hk Ha Hx Hp
                            |a t k p Hk Hp|a t rt c k k' own p x Hr Hc Hk Ha Hx Hp Hk'
                            |a t k p Hk].
  - eexists. split; [apply lookup_singleton_eq|done].
  - eexists. split; [apply lookup_insert_eq|]. cbn.
    rewrite flatten_unfold, Hl. cbn. rewrite length_app. split; [lia|].
    rewrite lookup_app_l by lia. congruence.
  - eexists. split; [apply lookup_singleton_eq|]. cbn.
    rewrite flatten_unfold, length_app. cbn. split; [lia|].
    subst k. cbn. rewrite Nat.sub_0_r.
    rewrite lookup_app_r by lia. rewrite Nat.sub_diag. cbn. congruence.
  - eexists. split; [apply lookup_insert_eq|]. cbn.
    rewrite flatten_unfold, Hr, length_app. cbn. split; [lia|].
    subst k'. rewrite lookup_app_r by lia.
    replace (S (length (flatten_opt (node_left t))) + k - 1
             - length (flatten_opt (node_left t)))%nat with (S (k - 1)) by lia.
    rewrite Hp. symmetry. exact Hx.
  - eexists. split; [apply lookup_singleton_eq|done].
Qed.

Lemma set_heap_Mk f own vs o :
  set_heap f (Mk own vs o) = Mk (f own) vs o.
Proof. reflexivity. Qed.

Lemma free_frame_Mk a own vs o :
  free_frame a (Mk own vs o) = Ok () (Mk (delete a own) vs o).
Proof. reflexivity. Qed.

Lemma frame_at_Mk a own vs o f :
  own !! a = Some f → frame_at a (Mk own vs o) = Ok f (Mk own vs o).
Proof. intros H. by apply frame_at_Some. Qed.

(** Destroying a generator of [inorder], in any state, frees its frame and
    those of the generators nested in it, and nothing else. *)
Lemma inorder_destroy (n : nat) : ∀ t a k own rest vs o,
  (height t ≤ S n)%nat → gen_state a t k own → own ##ₘ rest →
  edestroy (run inorder_coroutine n) a (Mk (own ∪ rest) vs o)
  = Ok () (Mk rest vs o).
Proof.
  induction n as [|n IH]; intros t a k own rest vs o Hh Hg Hd;
    rewrite run_unfold; cbn [edestroy]; unfold destroy_with;
    destruct Hg as [a t p|a t lt c k own p x Hl Hc Hk Ha Hx Hp
                   |a t k p Hk Hp|a t rt c k k' own p x Hr Hc Hk Ha Hx Hp Hk'
                   |a t k p Hk].
  all: try (apply map_disjoint_singleton_l in Hd as Hrest;
            rewrite singleton_union by exact ∅;
            erewrite bind_Ok by (apply frame_at_Mk, lookup_insert_eq);
            cbn [point drop inorder_coroutine inorder_drop];
            erewrite bind_Ok by reflexivity;
            rewrite free_frame_Mk, delete_insert_fresh by done; done).
  all: try (pose proof (height_left _ _ Hl)); try (pose proof (height_right _ _ Hr));
    try (pose proof (height_pos lt)); try (pose proof (height_pos rt)); try lia.
  all: apply map_disjoint_insert_l in Hd as [Hrest Hd].
  all: rewrite union_insert_swap by done.
  all: erewrite bind_Ok
         by (apply frame_at_Mk, lookup_union_Some_raw; right;
             split; [done|apply lookup_insert_eq]).
  all: cbn [point drop inorder_coroutine inorder_drop Generator_dtor coro
            handle_destroy inner].
  all: erewrite bind_Ok
         by (eapply IH; [|exact Hc|by apply map_disjoint_insert_r]; lia).
  all: by rewrite free_frame_Mk, delete_insert_fresh.
Qed.

(** The same, for every coroutine that has the destructors of [inorder],
    whatever its body. *)
Lemma inorder_destroy_by_drop (C : coroutine Z inorder_locals) (n : nat) :
  drop C = inorder_drop →
  ∀ t a k own rest vs o,
  (height t ≤ S n)%nat → gen_state a t k own → own ##ₘ rest →
  edestroy (run C n) a (Mk (own ∪ rest) vs o) = Ok () (Mk rest vs o).
Proof.
  intros HC.
  induction n as [|n IH]; intros t a k own rest vs o Hh Hg Hd;
    rewrite run_unfold; cbn [edestroy]; unfold destroy_with; rewrite HC;
    destruct Hg as [a t p|a t lt c k own p x Hl Hc Hk Ha Hx Hp
                   |a t k p Hk Hp|a t rt c k k' own p x Hr Hc Hk Ha Hx Hp Hk'
                   |a t k p Hk].
  all: try (apply map_disjoint_singleton_l in Hd as Hrest;
            rewrite singleton_union by exact ∅;
            erewrite bind_Ok by (apply frame_at_Mk, lookup_insert_eq);
            cbn [point inorder_drop];
            erewrite bind_Ok by reflexivity;
            rewrite free_frame_Mk, delete_insert_fresh by done; done).
  all: try (pose proof (height_left _ _ Hl)); try (pose proof (height_right _ _ Hr));
    try (pose proof (height_pos lt)); try (pose proof (height_pos rt)); try lia.
  all: apply map_disjoint_insert_l in Hd as [Hrest Hd].
  all: rewrite union_insert_swap by done.
  all: erewrite bind_Ok
         by (apply frame_at_Mk, lookup_union_Some_raw; right;
             split; [done|apply lookup_insert_eq]).
  all: cbn [point inorder_drop Generator_dtor coro handle_destroy inner].
  all: erewrite bind_Ok
         by (eapply IH; [|exact Hc|by apply map_disjoint_insert_r]; lia).
  all: by rewrite free_frame_Mk, delete_insert_fresh.
Qed.

Lemma coroutine_call_Mk (E : engine Z inorder_locals) l0 own vs o :
  coroutine_call E l0 (Mk own vs o)
  = Ok {| coro := Some (fresh (dom own)) |}
       (Mk (<[fresh (dom own) := Frame (InitialSuspend l0) (Promise None false)]> own)
           vs o).
Proof. reflexivity. Qed.

Section Loops.
Variable E : engine Z inorder_locals.
Variables (t : TreeNode) (c : addr) (m : machine Z inorder_locals)
  (f : frame Z inorder_locals).
Hypothesis Hf : heap m !! c = Some f.
Local Abbreviation g := {| coro := Some c |}.
Local Abbreviation it := {| handle := Some c |}.

Lemma left_loop_live l x :
  point f = YieldSuspend l → value (promise f) = Some x →
  inorder_left_loop E t g it m = Ok (Yield x (inorder_yield_left t g it)) m.
Proof.
  intros Hp Hv. destruct (iterator_live_any c m f l x Hf Hp Hv) as [Hne Hde].
  unfold inorder_left_loop. rewrite (bind_Ok _ _ _ _ _ Hne).
  by rewrite (bind_Ok _ _ _ _ _ Hde).
Qed.

Lemma left_loop_done m' :
  point f = FinalSuspend → edestroy E c m = Ok () m' →
  inorder_left_loop E t g it m
  = Ok (Yield (node_value t) (inorder_yield_value t)) m'.
Proof.
  intros Hp Hd. unfold inorder_left_loop.
  rewrite (bind_Ok _ _ _ _ _ (iterator_done_any c m f Hf Hp)).
  unfold Generator_dtor, handle_destroy. cbn [coro].
  by rewrite (bind_Ok _ _ _ _ _ Hd).
Qed.

Lemma right_loop_live l x :
  point f = YieldSuspend l → value (promise f) = Some x →
  inorder_right_loop E t g it m = Ok (Yield x (inorder_yield_right t g it)) m.
Proof.
  intros Hp Hv. destruct (iterator_live_any c m f l x Hf Hp Hv) as [Hne Hde].
  unfold inorder_right_loop. rewrite (bind_Ok _ _ _ _ _ Hne).
  by rewrite (bind_Ok _ _ _ _ _ Hde).
Qed.

Lemma right_loop_done m' :
  point f = FinalSuspend → edestroy E c m = Ok () m' →
  inorder_right_loop E t g it m = Ok Return m'.
Proof.
  intros Hp Hd. unfold inorder_right_loop.
  rewrite (bind_Ok _ _ _ _ _ (iterator_done_any c m f Hf Hp)).
  unfold Generator_dtor, handle_destroy. cbn [coro].
  by rewrite (bind_Ok _ _ _ _ _ Hd).
Qed.
End Loops.

(** One resume of a generator of [inorder], the generators nested in it
    being driven by an engine [E] that is right for trees of height at
    most [h]. *)
Section Step.
Variables (E : engine Z inorder_locals) (h : nat).
Hypothesis E_step : ∀ t a k own rest vs o,
  (height t ≤ h)%nat → gen_state a t k own →
  (k ≤ length (flatten t))%nat → own ##ₘ rest →
  ∃ own', eresume E a (Mk (own ∪ rest) vs o) = Ok () (Mk (own' ∪ rest) vs o)
          ∧ gen_state a t (S k) own' ∧ own' ##ₘ rest.
Hypothesis E_destroy : ∀ t a k own rest vs o,
  (height t ≤ h)%nat → gen_state a t k own → own ##ₘ rest →
  edestroy E a (Mk (own ∪ rest) vs o) = Ok () (Mk rest vs o).

(** Calling [inorder] on a subtree and taking [begin]. *)
Lemma spawn_child ct rest vs o :
  (height ct ≤ h)%nat →
  let c := fresh (dom rest) in
  ∃ own f l x,
    (g ← inorder E (Some ct); begin E g) (Mk rest vs o)
    = Ok {| handle := Some c |} (Mk (own ∪ rest) vs o)
    ∧ inorder E (Some ct) (Mk rest vs o)
      = Ok {| coro := Some c |}
           (Mk (<[c := Frame (InitialSuspend (inorder_entry (Some ct)))
                          (Promise None false)]> rest) vs o)
    ∧ begin E {| coro := Some c |}
        (Mk (<[c := Frame (InitialSuspend (inorder_entry (Some ct)))
                          (Promise None false)]> rest) vs o)
      = Ok {| handle := Some c |} (Mk (own ∪ rest) vs o)
    ∧ gen_state c ct 1 own ∧ own ##ₘ rest
    ∧ (own ∪ rest) !! c = Some f ∧ point f = YieldSuspend l
    ∧ value (promise f) = Some x ∧ flatten ct !! 0%nat = Some x.
Proof.
  intros Hh c.
  assert (rest !! c = None) as Hc
    by (apply not_elem_of_dom, is_fresh).
  destruct (E_step ct c 0%nat _ rest vs o Hh (gen_start c ct (Promise None false)))
    as (own & Hr & Hg & Hd); [lia|by apply map_disjoint_singleton_l|].
  rewrite singleton_union in Hr by exact ∅.
  destruct (gen_state_root _ _ _ _ Hg) as (f & Hf & Hpt).
  destruct (point f) as [l|l|] eqn:Hp; [lia| |pose proof (flatten_nonempty ct); lia].
  destruct Hpt as [_ Hv]. cbn in Hv.
  destruct (flatten ct !! 0%nat) as [x|] eqn:Hx;
    [|apply lookup_ge_None in Hx; pose proof (flatten_nonempty ct); lia].
  assert ((own ∪ rest) !! c = Some f) as Hf' by (by apply lookup_union_Some_l).
  assert (begin E {| coro := Some c |}
            (Mk (<[c := Frame (InitialSuspend (inorder_entry (Some ct)))
                              (Promise None false)]> rest) vs o)
          = Ok {| handle := Some c |} (Mk (own ∪ rest) vs o)) as Hb
    by (eapply begin_live_any; eauto).
  exists own, f, l, x. repeat split; done.
Qed.

(** Advancing the generator of a subtree. *)
Lemma advance_child ct c k own rest vs o :
  (height ct ≤ h)%nat → gen_state c ct k own →
  (1 ≤ k ≤ length (flatten ct))%nat → own ##ₘ rest →
  ∃ own' f,
    Iterator_incr E {| handle := Some c |} (Mk (own ∪ rest) vs o)
    = Ok () (Mk (own' ∪ rest) vs o)
    ∧ gen_state c ct (S k) own' ∧ own' ##ₘ rest
    ∧ (own' ∪ rest) !! c = Some f
    ∧ ((∃ l x, point f = YieldSuspend l ∧ value (promise f) = Some x
               ∧ flatten ct !! k = Some x ∧ (S k ≤ length (flatten ct))%nat)
       ∨ (point f = FinalSuspend ∧ k = length (flatten ct))).
Proof.
  intros Hh Hg Hk Hd.
  destruct (E_step ct c k own rest vs o Hh Hg) as (own' & Hr & Hg' & Hd');
    [lia|done|].
  destruct (gen_state_root _ _ _ _ Hg') as (f & Hf & Hpt).
  exists own', f. repeat split; try done.
  { by apply lookup_union_Some_l. }
  destruct (point f) as [l|l|] eqn:Hp; [lia| |right; split; [done|lia]].
  left. destruct Hpt as [Hk' Hv]. cbn in Hv. rewrite Nat.sub_0_r in Hv.
  destruct (flatten ct !! k) as [x|] eqn:Hx;
    [|apply lookup_ge_None in Hx; lia].
  exists l, x. repeat split; [done..|lia].
Qed.

Lemma inorder_resume_with t a k own rest vs o :
  (height t ≤ S h)%nat → gen_state a t k own →
  (k ≤ length (flatten t))%nat → own ##ₘ rest →
  ∃ own', resume_with inorder_coroutine E a (Mk (own ∪ rest) vs o)
          = Ok () (Mk (own' ∪ rest) vs o)
          ∧ gen_state a t (S k) own' ∧ own' ##ₘ rest.
Proof.
  intros Hh Hg Hk Hd.
  destruct Hg as [a t p|a t lt c k own p x Hl Hc Hkc Ha Hx Hp
                 |a t k p Hkv Hp|a t rt c k k' own p x Hr Hc Hkc Ha Hx Hp Hk'
                 |a t k p Hkf].
  - (* not started *)
    apply map_disjoint_singleton_l in Hd as Hrest.
    rewrite singleton_union by exact ∅.
    set (fr := Frame (InitialSuspend (inorder_entry (Some t))) p).
    destruct (node_left t) as [lt|] eqn:Hl.
    + pose proof (height_left _ _ Hl) as Hhl.
      destruct (spawn_child lt (<[a := fr]> rest) vs o)
        as (own & f & l & x & _ & Hcall & Hbeg & Hg & Hdc & Hf & Hpt & Hv & Hx);
        [lia|].
      set (c := fresh (dom (<[a := fr]> rest))) in *.
      apply map_disjoint_insert_r in Hdc as [Hca Hdc].
      eexists. split; [|split].
      * erewrite resume_with_yield;
          [|apply lookup_insert_eq|by left|].
        2:{ cbn [body inorder_coroutine inorder_body]. rewrite Hl.
            rewrite (bind_Ok _ _ _ _ _ Hcall).
            rewrite (bind_Ok _ _ _ _ _ Hbeg).
            eapply left_loop_live; eauto. }
        by rewrite set_heap_Mk, store_back.
      * eapply gen_left; eauto. pose proof (flatten_nonempty lt). lia.
      * by apply map_disjoint_insert_l.
    + eexists. split; [|split].
      * erewrite resume_with_yield;
          [|apply lookup_insert_eq|by left|].
        2:{ cbn [body inorder_coroutine inorder_body]. by rewrite Hl. }
        by rewrite set_heap_Mk, insert_insert_eq, <- (singleton_union ∅).
      * apply gen_value; [by rewrite Hl|done].
      * by apply map_disjoint_singleton_l.
  - (* in the first loop *)
    pose proof (height_left _ _ Hl) as Hhl.
    apply map_disjoint_insert_l in Hd as [Hrest Hd].
    rewrite union_insert_swap by done.
    set (fr := Frame (YieldSuspend (inorder_yield_left t {| coro := Some c |}
                                      {| handle := Some c |})) p).
    destruct (advance_child lt c k own (<[a := fr]> rest) vs o)
      as (own' & f & Hinc & Hg' & Hd' & Hf & Hcase);
      [lia|done|done|by apply map_disjoint_insert_r|].
    apply map_disjoint_insert_r in Hd' as [Hca Hd'].
    assert ((own ∪ <[a := fr]> rest) !! a = Some fr) as Hfa.
    { apply lookup_union_Some_raw. right. split; [done|apply lookup_insert_eq]. }
    destruct Hcase as [(l & x' & Hpt & Hv & Hx' & Hk')|[Hpt ->]].
    + eexists. split; [|split].
      * erewrite resume_with_yield; [|exact Hfa|by right|].
        2:{ cbn [body inorder_coroutine inorder_body].
            rewrite (bind_Ok _ _ _ _ _ Hinc).
            eapply left_loop_live; eauto. }
        by rewrite set_heap_Mk, store_back.
      * eapply gen_left; eauto; [lia|]. by rewrite Nat.sub_1_r.
      * by apply map_disjoint_insert_l.
    + eexists. split; [|split].
      * erewrite resume_with_yield; [|exact Hfa|by right|].
        2:{ cbn [body inorder_coroutine inorder_body].
            rewrite (bind_Ok _ _ _ _ _ Hinc).
            eapply left_loop_done; eauto.
            eapply E_destroy; [|exact Hg'|by apply map_disjoint_insert_r]. lia. }
        by rewrite set_heap_Mk, insert_insert_eq, <- (singleton_union ∅).
      * apply gen_value; [by rewrite Hl|done].
      * by apply map_disjoint_singleton_l.
  - (* at the value of the node *)
    apply map_disjoint_singleton_l in Hd as Hrest.
    rewrite singleton_union by exact ∅.
    set (fr := Frame (YieldSuspend (inorder_yield_value t)) p).
    destruct (node_right t) as [rt|] eqn:Hr.
    + pose proof (height_right _ _ Hr) as Hhr.
      destruct (spawn_child rt (<[a := fr]> rest) vs o)
        as (own & f & l & x & _ & Hcall & Hbeg & Hg & Hdc & Hf & Hpt & Hv & Hx);
        [lia|].
      set (c := fresh (dom (<[a := fr]> rest))) in *.
      apply map_disjoint_insert_r in Hdc as [Hca Hdc].
      eexists. split; [|split].
      * erewrite resume_with_yield;
          [|apply lookup_insert_eq|by right|].
        2:{ cbn [body inorder_coroutine inorder_body]. unfold inorder_right.
            rewrite Hr.
            rewrite (bind_Ok _ _ _ _ _ Hcall).
            rewrite (bind_Ok _ _ _ _ _ Hbeg).
            eapply right_loop_live; eauto. }
        by rewrite set_heap_Mk, store_back.
      * eapply gen_right; eauto; [pose proof (flatten_nonempty rt); lia|lia].
      * by apply map_disjoint_insert_l.
    + eexists. split; [|split].
      * erewrite resume_with_return;
          [|apply lookup_insert_eq|by right|].
        2:{ cbn [body inorder_coroutine inorder_body]. unfold inorder_right.
            by rewrite Hr. }
        by rewrite set_heap_Mk, insert_insert_eq, <- (singleton_union ∅).
      * apply gen_final. rewrite flatten_unfold, Hr, length_app. cbn. lia.
      * by apply map_disjoint_singleton_l.
  - (* in the second loop *)
    pose proof (height_right _ _ Hr) as Hhr.
    apply map_disjoint_insert_l in Hd as [Hrest Hd].
    rewrite union_insert_swap by done.
    set (fr := Frame (YieldSuspend (inorder_yield_right t {| coro := Some c |}
                                      {| handle := Some c |})) p).
    destruct (advance_child rt c k own (<[a := fr]> rest) vs o)
      as (own' & f & Hinc & Hg' & Hd' & Hf & Hcase);
      [lia|done|done|by apply map_disjoint_insert_r|].
    apply map_disjoint_insert_r in Hd' as [Hca Hd'].
    assert ((own ∪ <[a := fr]> rest) !! a = Some fr) as Hfa.
    { apply lookup_union_Some_raw. right. split; [done|apply lookup_insert_eq]. }
    destruct Hcase as [(l & x' & Hpt & Hv & Hx' & Hk'')|[Hpt ->]].
    + eexists. split; [|split].
      * erewrite resume_with_yield; [|exact Hfa|by right|].
        2:{ cbn [body inorder_coroutine inorder_body].
            rewrite (bind_Ok _ _ _ _ _ Hinc).
            eapply right_loop_live; eauto. }
        by rewrite set_heap_Mk, store_back.
      * eapply gen_right; eauto; [lia| |lia]. by rewrite Nat.sub_1_r.
      * by apply map_disjoint_insert_l.
    + eexists. split; [|split].
      * erewrite resume_with_return; [|exact Hfa|by right|].
        2:{ cbn [body inorder_coroutine inorder_body].
            rewrite (bind_Ok _ _ _ _ _ Hinc).
            eapply right_loop_done; eauto.
            eapply E_destroy; [|exact Hg'|by apply map_disjoint_insert_r]. lia. }
        by rewrite set_heap_Mk, insert_insert_eq, <- (singleton_union ∅).
      * apply gen_final. rewrite flatten_unfold, Hr, length_app. cbn. lia.
      * by apply map_disjoint_singleton_l.
  - (* completed *)
    lia.
Qed.
End Step.

(** One resume, by the engine for generators nested [n] deep. *)
Lemma inorder_step (n : nat) : ∀ t a k own rest vs o,
  (height t ≤ S n)%nat → gen_state a t k own →
  (k ≤ length (flatten t))%nat → own ##ₘ rest →
  ∃ own', eresume (run inorder_coroutine n) a (Mk (own ∪ rest) vs o)
          = Ok () (Mk (own' ∪ rest) vs o)
          ∧ gen_state a t (S k) own' ∧ own' ##ₘ rest.
Proof.
  induction n as [|n IH]; intros t a k own rest vs o Hh Hg Hk Hd;
    rewrite run_unfold; cbn [eresume inner].
  - apply (inorder_resume_with no_engine 0); try done.
    + intros t' ????? Hh'. pose proof (height_pos t'). lia.
    + intros t' ????? Hh'. pose proof (height_pos t'). lia.
  - apply (inorder_resume_with (run inorder_coroutine n) (S n)); try done.
    intros. by eapply inorder_destroy.
Qed.

(** [j] resumes in a row. *)
Lemma inorder_resumes (n : nat) t a rest vs o (j : nat) : ∀ k own,
  (height t ≤ S n)%nat → gen_state a t k own →
  (k + j ≤ S (length (flatten t)))%nat → own ##ₘ rest →
  ∃ own', resumes (run inorder_coroutine n) j (Some a) (Mk (own ∪ rest) vs o)
          = Ok () (Mk (own' ∪ rest) vs o)
          ∧ gen_state a t (k + j) own' ∧ own' ##ₘ rest.
Proof.
  induction j as [|j IH]; intros k own Hh Hg Hk Hd.
  - exists own. rewrite Nat.add_0_r. done.
  - destruct (inorder_step n t a k own rest vs o) as (own1 & Hr & Hg1 & Hd1);
      [done|done|lia|done|].
    destruct (IH (S k) own1) as (own2 & Hrs & Hg2 & Hd2); [done|done|lia|done|].
    exists own2. split; [|split; [|done]].
    + cbn [resumes handle_resume]. by rewrite (bind_Ok _ _ _ _ _ Hr).
    + by replace (k + S j)%nat with (S k + j)%nat by lia.
Qed.

(** The frames of a generator of [inorder] are at most as many as the tree
    is high. *)
Lemma gen_state_size a t k own : gen_state a t k own → (size own ≤ height t)%nat.
Proof.
  induction 1 as [a t p|a t lt c k own p x Hl Hc IH Hk Ha Hx Hp
                 |a t k p Hk Hp|a t rt c k k' own p x Hr Hc IH Hk Ha Hx Hp Hk'
                 |a t k p Hk].
  - rewrite map_size_singleton. apply height_pos.
  - rewrite map_size_insert_None by done. pose proof (height_left _ _ Hl). lia.
  - rewrite map_size_singleton. apply height_pos.
  - rewrite map_size_insert_None by done. pose proof (height_right _ _ Hr). lia.
  - rewrite map_size_singleton. apply height_pos.
Qed.
End InorderAny.

Lemma inorder_started (n : nat) (t : TreeNode) own vs o (j : nat) :
  (height t ≤ S n)%nat → (j ≤ S (length (flatten t)))%nat →
  let E := run inorder_coroutine n in
  let a := fresh (dom own) in
  let m0 := Machine (<[a := Frame (InitialSuspend (inorder_entry (Some t)))
                                  (Promise None false)]> own) vs o in
  inorder E (Some t) (Machine own vs o) = Ok {| coro := Some a |} m0
  ∧ ∃ own', resumes E j (Some a) m0 = Ok () (Machine (own' ∪ own) vs o)
            ∧ gen_state a t j own' ∧ own' ##ₘ own.
Proof.
  intros Hh Hj E a m0. split; [reflexivity|].
  assert (own !! a = None) as Ha by apply not_elem_of_dom, is_fresh.
  subst m0. rewrite <- (singleton_union ∅).
  apply (inorder_resumes n t a own vs o j 0%nat); try done.
  - apply gen_start.
  - by apply map_disjoint_singleton_l.
Qed.

(** X1. For every tree, the [k]-th resume of [inorder(t)] yields the [k]-th
    value of the tree in in-order, and the resume after the last value
    completes the generator; the engine must drive generators nested as
    deep as the tree is high. *)
Theorem inorder_yields_in_order (n : nat) (t : TreeNode)
    (m : machine Z inorder_locals) :
  (height t ≤ S n)%nat →
  let E := run inorder_coroutine n in
  let a := fresh (dom (heap m)) in
  ∃ m0, inorder E (Some t) m = Ok {| coro := Some a |} m0
    ∧ (∀ k x, flatten t !! k = Some x →
         returns (nth_resume E (S k) (Some a) m0) (Some x))
    ∧ returns (nth_resume E (S (length (flatten t))) (Some a) m0) None.
Proof.
  intros Hh E a. destruct m as [own vs o]. cbn [heap] in a.
  eexists. split; [reflexivity|]. split.
  - intros k x Hx. apply lookup_lt_Some in Hx as Hk.
    destruct (inorder_started n t own vs o (S k)) as (_ & own' & Hr & Hg & Hd);
      [done|lia|].
    destruct (gen_state_root _ _ _ _ Hg) as (f & Hf & Hpt).
    assert ((own' ∪ own) !! a = Some f) as Hf' by (by apply lookup_union_Some_l).
    eexists. unfold nth_resume. rewrite (bind_Ok _ _ _ _ _ Hr).
    rewrite (bind_Ok _ _ _ _ _ (handle_done_Some a (Machine _ vs o) f Hf')).
    destruct (point f); [lia| |lia].
    rewrite (bind_Ok _ _ _ _ _ (handle_promise_Some a (Machine _ vs o) f Hf')).
    destruct Hpt as [_ ->]. cbn. rewrite Nat.sub_0_r, Hx. reflexivity.
  - destruct (inorder_started n t own vs o (S (length (flatten t))))
      as (_ & own' & Hr & Hg & Hd); [done|lia|].
    destruct (gen_state_root _ _ _ _ Hg) as (f & Hf & Hpt).
    assert ((own' ∪ own) !! a = Some f) as Hf' by (by apply lookup_union_Some_l).
    eexists. unfold nth_resume. rewrite (bind_Ok _ _ _ _ _ Hr).
    rewrite (bind_Ok _ _ _ _ _ (handle_done_Some a (Machine _ vs o) f Hf')).
    destruct (point f); [lia|lia|]. reflexivity.
Qed.

Lemma inorder_yields_in_order_witness :
  (height test_root ≤ 3)%nat
  ∧ returns (nth_resume (run inorder_coroutine 2) 4 (Some 0%nat)
               {| heap := {[0%nat := Frame (InitialSuspend
                                              (inorder_entry (Some test_root)))
                                           (Promise None false)]};
                  vars := ∅; out := [] |})
            (Some 4).
Proof.
  split; [cbn; lia|].
  destruct (inorder_yields_in_order 2 test_root empty_machine)
    as (m0 & Hc & Hv & _); [cbn; lia|].
  injection Hc as <-. apply (Hv 3%nat 4). reflexivity.
Defined.

(** The printing loop of [testTreeTraversal], from any state of the
    generator on. *)
Lemma inorder_print_loop (n : nat) t a
    (rest : gmap addr (frame Z inorder_locals)) vs (N : nat) : ∀ (k : nat) own o,
  (height t ≤ S n)%nat → gen_state a t k own →
  (1 ≤ k ≤ S (length (flatten t)))%nat →
  (S (length (flatten t)) - k < N)%nat → own ##ₘ rest →
  ∃ own',
    for_loop (run inorder_coroutine n) N {| handle := Some a |} ()
      (λ val _, println (Item val);; mret ((), false))
      (Machine (own ∪ rest) vs o)
    = Ok () (Machine (own' ∪ rest) vs
               (o ++ (Item <$> skipn (k - 1) (flatten t))))
    ∧ gen_state a t (S (length (flatten t))) own' ∧ own' ##ₘ rest.
Proof.
  induction N as [|N IH]; intros k own o Hh Hg Hk HN Hd; [lia|].
  destruct (gen_state_root _ _ _ _ Hg) as (f & Hf & Hpt).
  assert (heap (Machine (own ∪ rest) vs o) !! a = Some f) as Hf'
    by (by apply lookup_union_Some_l).
  cbn [for_loop].
  destruct (point f) as [l|l|] eqn:Hp; [lia| |].
  - destruct Hpt as [Hk' Hv].
    destruct (flatten t !! (k - 1)%nat) as [x|] eqn:Hx;
      [|apply lookup_ge_None in Hx; lia].
    destruct (iterator_live_any a _ f l x Hf' Hp Hv) as [Hne Hde].
    rewrite (bind_Ok _ _ _ _ _ Hne), (bind_Ok _ _ _ _ _ Hde).
    erewrite bind_Ok by reflexivity. cbn [snd fst].
    destruct (inorder_step n t a k own rest vs (o ++ [Item x]))
      as (own1 & Hr & Hg1 & Hd1); [done|done|lia|done|].
    unfold Iterator_incr, handle_resume. cbn [handle].
    rewrite (bind_Ok _ _ _ _ _ Hr).
    destruct (IH (S k) own1 (o ++ [Item x])) as (own2 & Hl & Hg2 & Hd2);
      [done|done|lia|lia|done|].
    exists own2. split; [|done]. rewrite Hl. do 2 f_equal.
    rewrite <- app_assoc. f_equal.
    replace (S k - 1)%nat with (S (k - 1)) by lia.
    by rewrite (drop_S _ _ _ Hx).
  - rewrite (bind_Ok _ _ _ _ _ (iterator_done_any a _ f Hf' Hp)).
    exists own. split; [|split; [|done]].
    + rewrite Hpt. replace (S (length (flatten t)) - 1)%nat
        with (length (flatten t)) by lia.
      by rewrite drop_all, app_nil_r.
    + by rewrite <- Hpt.
Qed.

(** X2. For every tree, the loop of [testTreeTraversal] prints the values of
    the tree in in-order and nothing else, and leaves the frames and the
    named generators as they were: every frame that the traversal created
    has been destroyed. *)
Theorem inorder_loop_prints_in_order (n N : nat) (t : TreeNode)
    (m : machine Z inorder_locals) :
  (height t ≤ S n)%nat → (length (flatten t) < N)%nat →
  let E := run inorder_coroutine n in
  range_for E N (inorder E (Some t)) ()
    (λ val _, println (Item val);; mret ((), false)) m
  = Ok () {| heap := heap m; vars := vars m;
             out := out m ++ (Item <$> flatten t) |}.
Proof.
  intros Hh HN E. destruct m as [rest vs o]. cbn [heap vars out].
  destruct (inorder_started n t rest vs o 1) as (Hc & own1 & Hr & Hg1 & Hd1);
    [done|lia|].
  set (a := fresh (dom rest)) in *.
  cbn [resumes handle_resume] in Hr.
  unfold range_for. rewrite (bind_Ok _ _ _ _ _ Hc).
  destruct (gen_state_root _ _ _ _ Hg1) as (f & Hf & Hpt).
  pose proof (flatten_nonempty t) as Hne.
  destruct (point f) as [l|l|] eqn:Hp; [lia| |lia].
  assert (eresume E a
            (Machine (<[a := Frame (InitialSuspend (inorder_entry (Some t)))
                                   (Promise None false)]> rest) vs o)
          = Ok () (Machine (own1 ∪ rest) vs o)) as Hr'.
  { revert Hr. unfold mbind, M_bind.
    by destruct (eresume _ _ _) as [[] ?| | | |]. }
  erewrite bind_Ok;
    [|eapply begin_live_any; [exact Hr'|by apply lookup_union_Some_l|exact Hp]].
  destruct (inorder_print_loop n t a rest vs N 1 own1 o)
    as (own2 & Hl & Hg2 & Hd2); [done|done|lia|lia|done|].
  rewrite (bind_Ok _ _ _ _ _ Hl).
  unfold Generator_dtor, handle_destroy. cbn [coro].
  erewrite bind_Ok by (eapply inorder_destroy; eauto).
  reflexivity.
Qed.

Lemma inorder_loop_prints_in_order_witness :
  (height test_root ≤ 3)%nat ∧ (length (flatten test_root) < 8)%nat
  ∧ range_for (run inorder_coroutine 2) 8
      (inorder (run inorder_coroutine 2) (Some test_root)) ()
      (λ val _, println (Item val);; mret ((), false)) empty_machine
    = Ok () {| heap := ∅; vars := ∅;
               out := [] ++ (Item <$> flatten test_root) |}.
Proof.
  split; [cbn; lia|]. split; [cbn; lia|].
  apply (inorder_loop_prints_in_order 2 8 test_root empty_machine); cbn; lia.
Defined.

(** X3. Cancel by drop: for every tree and after any number of resumes,
    destroying the generator frees its frame and the frames of the
    generators nested in it and gives back the machine as it was before
    [inorder] was called; it runs no code of the producer: the destructor
    returns the same under the engine of [inorder_no_body], in which any
    resume of a frame and any part of the body is undefined. *)
Theorem inorder_cancel_by_drop (n k : nat) (t : TreeNode)
    (m : machine Z inorder_locals) :
  (height t ≤ S n)%nat → (k ≤ S (length (flatten t)))%nat →
  let E := run inorder_coroutine n in
  let g := {| coro := Some (fresh (dom (heap m))) |} in
  ∃ m0 m',
    inorder E (Some t) m = Ok g m0
    ∧ resumes E k (coro g) m0 = Ok () m'
    ∧ Generator_dtor E g m' = Ok () m
    ∧ Generator_dtor (run inorder_no_body n) g m' = Ok () m.
Proof.
  intros Hh Hk E g. destruct m as [rest vs o].
  destruct (inorder_started n t rest vs o k) as (Hc & own1 & Hr & Hg1 & Hd1);
    [done|done|].
  eexists _, _. split; [exact Hc|]. split; [exact Hr|].
  unfold Generator_dtor, handle_destroy. cbn [coro g]. split.
  - by eapply inorder_destroy.
  - by eapply (inorder_destroy_by_drop inorder_no_body).
Qed.

Lemma inorder_cancel_by_drop_witness :
  (height test_root ≤ 3)%nat ∧ (2 ≤ S (length (flatten test_root)))%nat
  ∧ ∃ m0 m',
      inorder (run inorder_coroutine 2) (Some test_root) empty_machine
      = Ok {| coro := Some 0%nat |} m0
      ∧ resumes (run inorder_coroutine 2) 2 (Some 0%nat) m0 = Ok () m'
      ∧ Generator_dtor (run inorder_coroutine 2) {| coro := Some 0%nat |} m'
        = Ok () empty_machine
      ∧ Generator_dtor (run inorder_no_body 2) {| coro := Some 0%nat |} m'
        = Ok () empty_machine.
Proof.
  split; [cbn; lia|]. split; [cbn; lia|].
  apply (inorder_cancel_by_drop 2 2 test_root empty_machine); cbn; lia.
Defined.

(** X4. For every tree and after any number of resumes, [inorder(t)] keeps
    at most as many frames alive as the tree is high, one for each level of
    nesting, beside the frames that were there before, which it leaves as
    they were; it prints nothing. *)
Theorem inorder_frames_bounded (n k : nat) (t : TreeNode)
    (m : machine Z inorder_locals) :
  (height t ≤ S n)%nat → (k ≤ S (length (flatten t)))%nat →
  let E := run inorder_coroutine n in
  ∃ m', (g ← inorder E (Some t); resumes E k (coro g)) m = Ok () m'
    ∧ (size (heap m') ≤ size (heap m) + height t)%nat
    ∧ heap m ⊆ heap m' ∧ vars m' = vars m ∧ out m' = out m.
Proof.
  intros Hh Hk E. destruct m as [rest vs o].
  destruct (inorder_started n t rest vs o k) as (Hc & own1 & Hr & Hg1 & Hd1);
    [done|done|].
  eexists. split.
  { rewrite (bind_Ok _ _ _ _ _ Hc). cbn [coro]. exact Hr. }
  cbn [heap vars out]. repeat split.
  - rewrite map_size_disj_union by done.
    pose proof (gen_state_size _ _ _ _ Hg1). lia.
  - by apply map_union_subseteq_r.
Qed.

Lemma inorder_frames_bounded_witness :
  (height test_root ≤ 3)%nat ∧ (1 ≤ S (length (flatten test_root)))%nat
  ∧ ∃ m', (g ← inorder (run inorder_coroutine 2) (Some test_root);
           resumes (run inorder_coroutine 2) 1 (coro g)) empty_machine
          = Ok () m'
    ∧ (size (heap m') ≤ size (heap (@empty_machine Z inorder_locals))
                        + height test_root)%nat
    ∧ heap (@empty_machine Z inorder_locals) ⊆ heap m'
    ∧ vars m' = vars (@empty_machine Z inorder_locals)
    ∧ out m' = out (@empty_machine Z inorder_locals).
Proof.
  split; [cbn; lia|]. split; [cbn; lia|].
  apply (inorder_frames_bounded 2 1 test_root empty_machine); cbn; lia.
Defined.

(** ** The loop over [range], for any bounds *)

Section RangeLoop.
Variable fuel : nat.
Local Abbreviation E := (run range_coroutine fuel).
Implicit Types (rest : gmap addr (frame Z range_locals)) (a : addr)
  (vs : gmap nat Generator) (o : list (event Z)).

Lemma range_resume_yield_Mk a end_ step i p rest vs o :
  in_int (i + step) = true → i + step < end_ →
  eresume E a
    (Machine (<[a := Frame (YieldSuspend (range_yield end_ step i)) p]> rest) vs o)
  = Ok () (Machine (<[a := Frame (YieldSuspend (range_yield end_ step (i + step)))
                                 (yield_value (i + step) p)]> rest) vs o).
Proof.
  intros Hin Hlt. rewrite run_unfold. cbn [eresume].
  erewrite resume_with_yield;
    [|apply lookup_insert_eq|by right|by apply range_body_yield_lt].
  unfold set_heap. cbn [heap vars out promise]. by rewrite insert_insert_eq.
Qed.

Lemma range_resume_return_Mk a end_ step i p rest vs o :
  in_int (i + step) = true → end_ ≤ i + step →
  eresume E a
    (Machine (<[a := Frame (YieldSuspend (range_yield end_ step i)) p]> rest) vs o)
  = Ok () (Machine (<[a := Frame FinalSuspend (return_void p)]> rest) vs o).
Proof.
  intros Hin Hge. rewrite run_unfold. cbn [eresume].
  erewrite resume_with_return;
    [|apply lookup_insert_eq|by right|by apply range_body_yield_ge].
  unfold set_heap. cbn [heap vars out promise]. by rewrite insert_insert_eq.
Qed.

Lemma print_body_Mk {L} (v : Z) (own : gmap addr (frame Z L)) vs o :
  (println (Item v);; mret ((), false)) (Machine own vs o)
  = Ok ((), false) (Machine own vs (o ++ [Item v])).
Proof. reflexivity. Qed.

Lemma range_values_cons (i step : Z) (n : nat) :
  (λ k : nat, i + Z.of_nat k * step) <$> seq 0 (S n)
  = i :: ((λ k : nat, i + step + Z.of_nat k * step) <$> seq 0 n).
Proof.
  cbn [seq]. rewrite fmap_cons. f_equal; [lia|].
  rewrite <- fmap_S_seq, <- list_fmap_compose.
  apply list_fmap_ext. intros _ k _. cbn. lia.
Qed.

(** The values [i, i + step, ...], [S j] of them. *)
Lemma range_print_loop a end_ step rest vs (j : nat) : ∀ (N : nat) i p o,
  (S j < N)%nat → value p = Some i →
  (∀ k : Z, 1 ≤ k < Z.of_nat (S j) →
     in_int (i + k * step) = true ∧ i + k * step < end_) →
  in_int (i + Z.of_nat (S j) * step) = true →
  end_ ≤ i + Z.of_nat (S j) * step →
  ∃ p',
    for_loop E N {| handle := Some a |} ()
      (λ v _, println (Item v);; mret ((), false))
      (Machine (<[a := Frame (YieldSuspend (range_yield end_ step i)) p]> rest)
               vs o)
    = Ok () (Machine (<[a := Frame FinalSuspend p']> rest) vs
               (o ++ (Item <$> ((λ k : nat, i + Z.of_nat k * step)
                                <$> seq 0 (S j))))).
Proof.
  induction j as [|j IH]; intros N i p o HN Hp Hk Hin Hge;
    (destruct N as [|N]; [lia|]); cbn [for_loop].
  - destruct (iterator_live_any a
                (Machine (<[a := Frame (YieldSuspend (range_yield end_ step i)) p]>
                            rest) vs o) _ _ i (lookup_insert_eq _ _ _) eq_refl Hp)
      as [Hne Hde].
    rewrite (bind_Ok _ _ _ _ _ Hne), (bind_Ok _ _ _ _ _ Hde).
    erewrite bind_Ok by apply print_body_Mk. cbn [snd fst].
    unfold Iterator_incr, handle_resume. cbn [handle].
    rewrite Z.mul_1_l in Hin, Hge.
    erewrite bind_Ok by (by apply range_resume_return_Mk).
    destruct N as [|N]; [lia|]. cbn [for_loop].
    erewrite bind_Ok
      by (eapply iterator_done_any; [apply lookup_insert_eq|done]).
    eexists. do 2 f_equal. cbn. do 3 f_equal. lia.
  - destruct (iterator_live_any a
                (Machine (<[a := Frame (YieldSuspend (range_yield end_ step i)) p]>
                            rest) vs o) _ _ i (lookup_insert_eq _ _ _) eq_refl Hp)
      as [Hne Hde].
    rewrite (bind_Ok _ _ _ _ _ Hne), (bind_Ok _ _ _ _ _ Hde).
    erewrite bind_Ok by apply print_body_Mk. cbn [snd fst].
    unfold Iterator_incr, handle_resume. cbn [handle].
    destruct (Hk 1) as [Hin1 Hlt1]; [lia|]. rewrite Z.mul_1_l in Hin1, Hlt1.
    erewrite bind_Ok by (by apply range_resume_yield_Mk).
    destruct (IH N (i + step) (yield_value (i + step) p) (o ++ [Item i]))
      as (p' & Hl); [lia|done| | | |].
    { intros k Hk'. replace (i + step + k * step) with (i + (k + 1) * step)
        by lia. apply Hk. lia. }
    { by replace (i + step + Z.of_nat (S j) * step)
        with (i + Z.of_nat (S (S j)) * step) by lia. }
    { by replace (i + step + Z.of_nat (S j) * step)
        with (i + Z.of_nat (S (S j)) * step) by lia. }
    exists p'. rewrite Hl. do 2 f_equal. rewrite <- app_assoc. f_equal.
    by rewrite (range_values_cons i step (S j)).
Qed.

Lemma range_destroy_Mk a f rest vs o :
  rest !! a = None →
  edestroy E a (Machine (<[a := f]> rest) vs o) = Ok () (Machine rest vs o).
Proof.
  intros Ha. rewrite run_unfold. cbn [edestroy]. unfold destroy_with.
  erewrite bind_Ok by (apply frame_at_Some; apply lookup_insert_eq).
  assert (∀ m : machine Z range_locals,
            match point f with
            | InitialSuspend l | YieldSuspend l =>
                drop range_coroutine (inner range_coroutine fuel) l
            | FinalSuspend => mret ()
            end m = Ok () m) as Hdrop by (by destruct (point f)).
  rewrite (bind_Ok _ _ _ _ _ (Hdrop _)).
  unfold free_frame, modify, set_heap. cbn [heap vars out].
  by rewrite delete_insert_eq, delete_id.
Qed.
End RangeLoop.

(** X5. For [start < end] and [0 < step], the loop
    [for (auto i : range(start, end, step)) println(i)] prints the
    [(end - 1 - start) / step + 1] values [start + k * step] below [end], in
    this order, and leaves the frames as they were, provided the [i += step]
    that leaves the loop does not overflow. *)
Theorem range_loop_prints_progression (fuel N : nat) (start end_ step : Z)
    (m : machine Z range_locals) :
  in_int start = true → in_int end_ = true → in_int step = true →
  start < end_ → 0 < step →
  let cnt := S (Z.to_nat ((end_ - 1 - start) / step)) in
  in_int (start + Z.of_nat cnt * step) = true →
  (cnt < N)%nat →
  let E := run range_coroutine fuel in
  range_for E N (range E start end_ step) ()
    (λ i _, println (Item i);; mret ((), false)) m
  = Ok () {| heap := heap m; vars := vars m;
             out := out m ++ (Item <$> ((λ k : nat, start + Z.of_nat k * step)
                                        <$> seq 0 cnt)) |}.
Proof.
  intros Hs He Hst Hlt Hpos cnt Hin HN E.
  apply in_int_spec in Hs, He, Hst. unfold INT_MIN, INT_MAX in Hs, He, Hst.
  destruct m as [rest vs o]. cbn [heap vars out].
  set (a := fresh (dom rest)).
  assert (rest !! a = None) as Ha by apply not_elem_of_dom, is_fresh.
  set (q := (end_ - 1 - start) / step) in *.
  assert (0 ≤ q) as Hq0 by (apply Z.div_pos; lia).
  assert (step * q ≤ end_ - 1 - start) as Hq1 by (apply Z.mul_div_le; lia).
  assert (end_ - 1 - start < step * Z.succ q) as Hq2
    by (apply Z.mul_succ_div_gt; lia).
  unfold range_for, range. erewrite bind_Ok by reflexivity.
  unfold set_heap. cbn [heap vars out]. fold a.
  set (f1 := Frame (YieldSuspend (range_yield end_ step start))
                   (yield_value start (Promise None false))).
  assert (eresume E a
            (Machine (<[a := Frame (InitialSuspend (range_entry start end_ step))
                                   (Promise None false)]> rest) vs o)
          = Ok () (Machine (<[a := f1]> rest) vs o)) as Hr.
  { subst E. rewrite run_unfold. cbn [eresume].
    erewrite resume_with_yield;
      [|apply lookup_insert_eq|by left|by apply range_body_entry_lt].
    unfold set_heap. cbn [heap vars out promise]. by rewrite insert_insert_eq. }
  rewrite (bind_Ok _ _ _ _ _
             (begin_live_any E a _ _ f1 _ Hr (lookup_insert_eq _ _ _) eq_refl)).
  destruct (range_print_loop fuel a end_ step rest vs (Z.to_nat q) N start
              (yield_value start (Promise None false)) o) as (p' & Hl);
    [done|done| | | |].
  { intros k Hk. split; [apply in_int_spec; unfold INT_MIN, INT_MAX|]; nia. }
  { exact Hin. }
  { subst cnt. nia. }
  rewrite (bind_Ok _ _ _ _ _ Hl).
  unfold Generator_dtor, handle_destroy. cbn [coro].
  erewrite bind_Ok by (by apply range_destroy_Mk).
  reflexivity.
Qed.

Lemma range_loop_prints_progression_witness :
  range_for (run range_coroutine 0) 5
    (range (run range_coroutine 0) 0 10 3) ()
    (λ i _, println (Item i);; mret ((), false)) empty_machine
  = Ok () {| heap := ∅; vars := ∅;
             out := [Item 0; Item 3; Item 6; Item 9] |}.
Proof.
  apply (range_loop_prints_progression 0 5 0 10 3 empty_machine);
    first [reflexivity | lia | vm_compute; lia].
Defined.

(** ** The values of [fibonacci] *)

Lemma fib_SS n : fib (S (S n)) = fib n + fib (S n).
Proof. cbn [fib]. lia. Qed.

Lemma fib_pair_spec n : fib_pair n = (fib n, fib (S n)).
Proof.
  induction n as [|n IH]; [done|].
  cbn [fib_pair]. rewrite IH. by rewrite fib_SS.
Qed.

Lemma fib_nonneg n : 0 ≤ fib n ∧ 0 ≤ fib (S n).
Proof.
  induction n as [|n [IH1 IH2]]; [cbn; lia|]. rewrite fib_SS. lia.
Qed.

Lemma fib_mono n k : (n ≤ k)%nat → fib n ≤ fib k.
Proof.
  induction 1 as [|k _ IH]; [lia|].
  etrans; [exact IH|]. destruct k as [|k]; [cbn; lia|].
  rewrite fib_SS. pose proof (fib_nonneg k). lia.
Qed.

Lemma fib_46 : fib 46 = 1836311903.
Proof.
  pose proof (fib_pair_spec 46) as H. vm_compute fib_pair in H. congruence.
Qed.

Lemma fib_47 : fib 47 = 2971215073.
Proof.
  pose proof (fib_pair_spec 46) as H. vm_compute fib_pair in H. congruence.
Qed.

Lemma fib_in_int n : (n ≤ 46)%nat → in_int (fib n) = true.
Proof.
  intros Hn. apply in_int_spec. unfold INT_MIN, INT_MAX.
  pose proof (fib_mono n 46 Hn) as Hm. rewrite fib_46 in Hm.
  pose proof (fib_nonneg n). lia.
Qed.

Section Fibonacci.
Variable fuel : nat.
Local Abbreviation E := (run fibonacci_coroutine fuel).
Implicit Types (rest : gmap addr (frame Z fibonacci_locals)) (a : addr)
  (vs : gmap nat Generator) (o : list (event Z)).

Lemma fibonacci_resume_Mk a (n : nat) p rest vs o :
  (S (S n) ≤ 46)%nat →
  eresume E a
    (Machine (<[a := Frame (YieldSuspend (fibonacci_yield (fib n) (fib (S n))))
                           p]> rest) vs o)
  = Ok () (Machine (<[a := Frame (YieldSuspend
                                    (fibonacci_yield (fib (S n)) (fib (S (S n)))))
                                 (yield_value (fib (S n)) p)]> rest) vs o).
Proof.
  intros Hn. rewrite run_unfold. cbn [eresume].
  erewrite resume_with_yield; [|apply lookup_insert_eq|by right|].
  2:{ cbn [body fibonacci_coroutine fibonacci_body]. unfold int_add.
      rewrite <- fib_SS, (fib_in_int _ Hn). reflexivity. }
  unfold set_heap. cbn [heap vars out promise]. by rewrite insert_insert_eq.
Qed.

Lemma fibonacci_resume_overflow a p rest vs o :
  eresume E a
    (Machine (<[a := Frame (YieldSuspend (fibonacci_yield (fib 45) (fib 46)))
                           p]> rest) vs o)
  = Undefined.
Proof.
  rewrite run_unfold. cbn [eresume].
  erewrite resume_with_undefined; [done|apply lookup_insert_eq|by right|].
  cbn [body fibonacci_coroutine fibonacci_body]. unfold int_add.
  rewrite <- fib_SS, fib_47. reflexivity.
Qed.

(** [j] resumes in a row, from the [n]-th value on. *)
Lemma fibonacci_resumes a rest vs o (j : nat) : ∀ (n : nat) p,
  (S n + j ≤ 46)%nat →
  ∃ p', resumes E j (Some a)
          (Machine (<[a := Frame (YieldSuspend
                                    (fibonacci_yield (fib n) (fib (S n)))) p]>
                      rest) vs o)
        = Ok () (Machine (<[a := Frame (YieldSuspend
                                          (fibonacci_yield (fib (n + j))
                                             (fib (S (n + j))))) p']>
                            rest) vs o)
    ∧ (j = 0%nat → p' = p)
    ∧ ((0 < j)%nat → value p' = Some (fib (n + j))).
Proof.
  induction j as [|j IH]; intros n p Hn.
  - exists p. rewrite Nat.add_0_r. split; [done|]. split; [done|lia].
  - destruct (IH (S n) (yield_value (fib (S n)) p)) as (p' & Hr & H0 & Hv);
      [lia|].
    exists p'. replace (n + S j)%nat with (S n + j)%nat by lia.
    split; [|split; [lia|]].
    + cbn [resumes handle_resume].
      erewrite bind_Ok by (apply fibonacci_resume_Mk; lia). exact Hr.
    + intros _. destruct j as [|j]; [|apply Hv; lia].
      rewrite H0 by done. by rewrite Nat.add_0_r.
Qed.

(** The first [S n] resumes of a new generator. *)
Lemma fibonacci_started a rest vs o (n : nat) :
  (n ≤ 45)%nat →
  ∃ p', resumes E (S n) (Some a)
          (Machine (<[a := Frame (InitialSuspend fibonacci_entry)
                                 (Promise None false)]> rest) vs o)
        = Ok () (Machine (<[a := Frame (YieldSuspend
                                          (fibonacci_yield (fib n) (fib (S n))))
                                       p']> rest) vs o)
    ∧ value p' = Some (fib n).
Proof.
  intros Hn.
  destruct (fibonacci_resumes a rest vs o n 0%nat
              (yield_value 0 (Promise None false)))
    as (p' & Hr & H0 & Hv); [lia|].
  exists p'. split.
  - cbn [resumes handle_resume]. erewrite bind_Ok; [exact Hr|].
    rewrite run_unfold. cbn [eresume].
    erewrite resume_with_yield; [|apply lookup_insert_eq|by left|reflexivity].
    unfold set_heap. cbn [heap vars out promise]. by rewrite insert_insert_eq.
  - destruct n as [|n]; [by rewrite H0|apply Hv; lia].
Qed.
End Fibonacci.

(** X10. [fibonacci()] is not an unbounded sequence on [int]: its resume
    number [n + 1] yields the Fibonacci number [fib n] for the 46 numbers
    [fib 0] to [fib 45], the 47th resume overflows in [b += a], which is
    undefined, and destroying the generator after any of the 46 values gives
    back the machine as it was before the call. *)
Theorem fibonacci_values_until_overflow (fuel n : nat)
    (m : machine Z fibonacci_locals) :
  (n < 46)%nat →
  let E := run fibonacci_coroutine fuel in
  let a := fresh (dom (heap m)) in
  ∃ m0, fibonacci E m = Ok {| coro := Some a |} m0
    ∧ returns (nth_resume E (S n) (Some a) m0) (Some (fib n))
    ∧ nth_resume E 47 (Some a) m0 = Undefined
    ∧ (resumes E (S n) (Some a);; Generator_dtor E {| coro := Some a |}) m0
      = Ok () m.
Proof.
  intros Hn E a. destruct m as [rest vs o]. cbn [heap] in a.
  assert (rest !! a = None) as Ha by apply not_elem_of_dom, is_fresh.
  eexists. split; [reflexivity|].
  unfold set_heap. cbn [heap vars out].
  destruct (fibonacci_started fuel a rest vs o n) as (p' & Hr & Hv); [lia|].
  destruct (fibonacci_started fuel a rest vs o 45) as (p45 & Hr45 & _); [lia|].
  split; [|split].
  - eexists. unfold nth_resume. rewrite (bind_Ok _ _ _ _ _ Hr).
    erewrite bind_Ok by (apply handle_done_Some, lookup_insert_eq).
    cbn [point].
    erewrite bind_Ok by (apply handle_promise_Some, lookup_insert_eq).
    cbn [promise]. by rewrite Hv.
  - unfold nth_resume. apply bind_Undefined.
    etrans; [exact (resumes_snoc _ 46 a _ _ Hr45)|].
    apply fibonacci_resume_overflow.
  - rewrite (bind_Ok _ _ _ _ _ Hr).
    unfold Generator_dtor, handle_destroy. cbn [coro]. subst E.
    rewrite run_unfold. cbn [edestroy]. unfold destroy_with.
    erewrite bind_Ok by (apply frame_at_Some; apply lookup_insert_eq).
    cbn [point drop fibonacci_coroutine].
    erewrite bind_Ok by reflexivity.
    unfold free_frame, modify, set_heap. cbn [heap vars out].
    by rewrite delete_insert_eq, delete_id.
Qed.

Lemma fibonacci_values_until_overflow_witness :
  (10 < 46)%nat
  ∧ returns (nth_resume (run fibonacci_coroutine 0) 11 (Some 0%nat)
               {| heap := {[0%nat := Frame (InitialSuspend fibonacci_entry)
                                           (Promise None false)]};
                  vars := ∅; out := [] |})
            (Some 55).
Proof.
  split; [lia|].
  destruct (fibonacci_values_until_overflow 0 10 empty_machine)
    as (m0 & Hc & Hv & _); [lia|].
  injection Hc as <-. exact Hv.
Defined.

(** ** Unique ownership *)

Section UniqueOwner.
Context {T L : Type} (E : engine T L).
Implicit Types (m : machine T L) (g h : nat).

Lemma unique_owner_moved (vs : gmap nat Generator) g h G
    (hp : gmap addr (frame T L)) o (m : machine T L) :
  vars m = vs → unique_owner m → vs !! g = Some G → g ≠ h →
  (∀ H a, vs !! h = Some H → coro H = Some a → coro G ≠ Some a) →
  unique_owner
    {| heap := hp;
       vars := <[g := {| coro := None |}]> (<[h := {| coro := coro G |}]> vs);
       out := o |}.
Proof.
  intros <- Hu Hg Hne Hh x y Gx Gy a Hx Hy Hcx Hcy. cbn [vars] in Hx, Hy.
  destruct (decide (x = g)) as [->|Hxg].
  { rewrite lookup_insert_eq in Hx. by injection Hx as <-. }
  destruct (decide (y = g)) as [->|Hyg].
  { rewrite lookup_insert_eq in Hy. by injection Hy as <-. }
  rewrite lookup_insert_ne in Hx, Hy by done.
  destruct (decide (x = h)) as [->|Hxh], (decide (y = h)) as [->|Hyh];
    try done.
  - rewrite lookup_insert_eq in Hx. rewrite lookup_insert_ne in Hy by done.
    injection Hx as <-. cbn [coro] in Hcx.
    exfalso. apply Hyg. symmetry. by eapply (Hu g y).
  - rewrite lookup_insert_eq in Hy. rewrite lookup_insert_ne in Hx by done.
    injection Hy as <-. cbn [coro] in Hcy.
    exfalso. apply Hxg. symmetry. by eapply (Hu g x).
  - rewrite lookup_insert_ne in Hx, Hy by done. by eapply Hu.
Qed.

(** X11. Move construction and move assignment keep the ownership unique:
    if no two named generators own the same frame before, none do after,
    the source being left empty.  (Destroying a frame is taken not to
    change the named generators.) *)
Theorem moves_keep_unique_owner m m' g h :
  (∀ a s s', edestroy E a s = Ok () s' → vars s' = vars s) →
  unique_owner m →
  Generator_move_ctor g m = Ok h m'
  ∨ Generator_move_assign E h g m = Ok () m' →
  unique_owner m'.
Proof.
  intros HE Hu [Hc|Ha].
  - unfold Generator_move_ctor, var_get, var_new, var_set_coro, var_get,
      modify, mbind, M_bind, mret, M_ret in Hc.
    destruct (vars m !! g) as [G|] eqn:Hg; [|done]. cbn in Hc.
    pose proof (fresh_var_ne _ _ _ Hg) as Hn.
    rewrite lookup_insert_ne in Hc by done. rewrite Hg in Hc.
    injection Hc as <- <-. unfold set_vars. cbn [heap vars out].
    apply (unique_owner_moved (vars m) g _ G _ _ m eq_refl Hu Hg Hn).
    intros H a Hh. exfalso.
    assert (fresh (dom (vars m)) ∈ dom (vars m)) as Hin
      by (apply elem_of_dom; eauto).
    by apply is_fresh in Hin.
  - unfold Generator_move_assign in Ha.
    destruct (decide (h ≠ g)) as [Hne|Heq]; [|by injection Ha as <-].
    unfold var_get, var_set_coro, var_get, modify, mbind, M_bind, mret,
      M_ret in Ha.
    destruct (vars m !! h) as [H|] eqn:Hh; [|done].
    destruct (match coro H with
              | Some _ => handle_destroy E (coro H)
              | None => λ s, Ok () s
              end m) as [[] s1| | | |] eqn:Hd; try done.
    assert (vars s1 = vars m) as Hv.
    { destruct (coro H) as [a|]; [by eapply HE|by injection Hd as <-]. }
    rewrite Hv, ?Hh in Ha.
    destruct (vars m !! g) as [G|] eqn:Hg; [|done].
    unfold set_vars in Ha. cbn [heap vars out] in Ha.
    rewrite Hv, Hh in Ha. cbn [heap vars out] in Ha.
    rewrite lookup_insert_ne in Ha by done. rewrite Hv, Hg in Ha.
    injection Ha as <-. cbn [heap vars out].
    apply (unique_owner_moved (vars m) g h G _ _ m eq_refl Hu Hg);
      [congruence|].
    intros H' a Hh' Hc' Hcg. rewrite Hh in Hh'. injection Hh' as <-.
    apply Hne. by eapply (Hu h g).
Qed.
End UniqueOwner.

Lemma destroy_with_vars {T L} (C : coroutine T L) E a (s s' : machine T L) :
  (∀ l s s', drop C E l s = Ok () s' → vars s' = vars s) →
  destroy_with C E a s = Ok () s' → vars s' = vars s.
Proof.
  intros Hdrop. unfold destroy_with, frame_at, free_frame, modify, mbind, M_bind.
  destruct (heap s !! a) as [f|]; [|done].
  destruct (match point f with
            | InitialSuspend l | YieldSuspend l => drop C E l
            | FinalSuspend => mret ()
            end s) as [[] s1| | | |] eqn:Hd; try done.
  intros [= <-]. cbn [vars set_heap].
  destruct (point f); [by eapply Hdrop..|by injection Hd as <-].
Qed.

Lemma moves_keep_unique_owner_witness :
  let fr := Frame (InitialSuspend (range_entry 1 6 1)) (Promise None false) in
  let m : machine Z range_locals :=
    {| heap := {[0%nat := fr]};
       vars := {[0%nat := {| coro := Some 0%nat |}]}; out := [] |} in
  let m' : machine Z range_locals :=
    {| heap := {[0%nat := fr]};
       vars := {[0%nat := {| coro := None |};
                 1%nat := {| coro := Some 0%nat |}]}; out := [] |} in
  Generator_move_ctor 0%nat m = Ok 1%nat m' ∧ unique_owner m'.
Proof.
  intros fr m m'.
  assert (Generator_move_ctor 0%nat m = Ok 1%nat m') as Hc
    by (vm_compute; reflexivity).
  split; [exact Hc|].
  apply (moves_keep_unique_owner (run range_coroutine 0) m m' 0%nat 1%nat).
  - intros a s s' Hd.
    apply (destroy_with_vars range_coroutine (inner range_coroutine 0) a s s');
      [|exact Hd].
    intros l s1 s2 H. by injection H as <-.
  - intros x y G H a Hx Hy _ _. cbn [vars m] in Hx, Hy.
    apply lookup_singleton_Some in Hx as [<- _].
    by apply lookup_singleton_Some in Hy as [<- _].
  - by left.
Defined.
